(** * DALI: operator specifications, argument resolution, decode dispatch

    A shallow embedding of

    - [dali/pipeline/operator/op_spec.h]  (class [OpSpec]: argument storage,
      the three-tier lookup of [GetArgument]/[TryGetArgument], the input
      and output bookkeeping),
    - [dali/util/std_file.cc]             (class [StdFileStream]),
    - the decode-backend choice exercised by
      [dali/operators/decoder/nvjpeg/nvjpeg_decoder_decoupled_api_test.cc],

    followed by the properties proved about them.  C++ exceptions are
    values of a result type, [std::unordered_map] and [std::map] are
    [gmap]s, [std::vector] is [list], and [int] is a 32-bit two's
    complement integer carried in [Z]. *)

From Stdlib Require Import ZArith String Ascii List Bool Lia.
From stdpp Require Import base tactics option list gmap strings pretty.

Set Warnings "-register-all".
Local Open Scope Z_scope.
Local Open Scope string_scope.

(* ===================================================================== *)
(** * Part I: the embedding                                               *)
(* ===================================================================== *)

(** ** Exceptions ([dali/core/error_handling.h]; not part of the sources)

    Modelled from the spec: the macros [DALI_ENFORCE(cond, msg)] and
    [DALI_FAIL(msg)] are missing.  They throw an exception that carries the
    message.  The embedding keeps the message and adds the class of the
    failure; the classes are the ones of the design's error taxonomy,
    extended by the guards the taxonomy has no name for. *)

Inductive ErrorKind :=
| UnknownArgument
| NoDefault
| TypeMismatch
| ShapeMismatch
| MissingContext
| ConflictingSpecification
| NonUniformArgument      (* is_uniform guard of CheckScalarArgumentShape *)
| NoSuchArgumentInput     (* a name the workspace or the OpSpec does not bind *)
| NoSchema                (* GetSchema on an OpSpec without schema *)
| InvalidIndex            (* DALI_ENFORCE_VALID_INDEX and friends *)
| InvalidDevice
| OutOfBounds             (* operator[] outside a vector: undefined in C++ *)
| OpenFailed
| IOFailed.

Record DALIException := mkException { kind : ErrorKind; what : string }.

Inductive Result (A : Type) :=
| Ok (a : A)
| Throw (e : DALIException).
Arguments Ok {A} a.
Arguments Throw {A} e.

#[global] Instance Result_ret : MRet Result := @Ok.
#[global] Instance Result_bind : MBind Result :=
  fun A B f m => match m with Ok a => f a | Throw e => Throw e end.
#[global] Instance Result_fmap : FMap Result :=
  fun A B f m => match m with Ok a => Ok (f a) | Throw e => Throw e end.

Definition DALI_FAIL {A} (k : ErrorKind) (msg : string) : Result A :=
  Throw (mkException k msg).

Definition DALI_ENFORCE (cond : bool) (k : ErrorKind) (msg : string) : Result unit :=
  if cond then Ok tt else DALI_FAIL k msg.

(** The class of the exception a call ended with, if any. *)
Definition failure_kind {A} (r : Result A) : option ErrorKind :=
  match r with Ok _ => None | Throw e => Some (kind e) end.

(** The two characters string literals of the sources escape. *)
Definition dq : string := String (ascii_of_nat 34) EmptyString.
Definition nl : string := String (ascii_of_nat 10) EmptyString.

(** ** Machine integers

    [wrap_signed w] and [wrap_unsigned w] are the conversions to a [w]-bit
    two's complement, respectively unsigned, integer. *)

Definition wrap_unsigned (w : Z) (z : Z) : Z := z mod 2 ^ w.
Definition wrap_signed (w : Z) (z : Z) : Z :=
  (z + 2 ^ (w - 1)) mod 2 ^ w - 2 ^ (w - 1).

Definition INT_MAX : Z := 2 ^ 31 - 1.
Definition UINT_MAX : Z := 2 ^ 32 - 1.

(** [int] and the conversion [size_t -> int] made by [return v.size();]. *)
Definition to_int (z : Z) : Z := wrap_signed 32 z.
Definition int_of_size (n : nat) : Z := to_int (Z.of_nat n).

(** [to_string(int)] and the [int] printed by [make_string]. *)
Definition to_string (z : Z) : string := pretty z.

(** ** Types and values of arguments ([dali/pipeline/operator/argument.h],
    [dali/pipeline/data/types.h]; neither is part of the sources)

    Modelled from the spec: the closed set of semantic types an argument
    or a tensor element may have, one value slot for all of them, and
    the table that maps a requested type [T] to its storage type
    [argument_storage_t<T>]: a tagged value keyed by a small closed set of
    types, read through explicit numeric widenings. *)

Inductive CType :=
| t_bool
| t_int8 | t_int16 | t_int32 | t_int64
| t_uint8 | t_uint16 | t_uint32 | t_uint64
| t_float
| t_string
| t_vector (elem : CType).

#[global] Instance CType_eq_dec : EqDecision CType.
Proof. solve_decision. Defined.

(** Modelled from the spec: the value slot.  A [float] is carried as its
    32-bit pattern: it is stored and read back, never computed with. *)
Inductive Value :=
| VBool (b : bool)
| VInt (z : Z)
| VFloat (bits : Z)
| VString (s : string)
| VVector (l : list Value).

(** Signedness and width of the integral types. *)
Definition integral (t : CType) : option (bool * Z) :=
  match t with
  | t_int8 => Some (true, 8) | t_int16 => Some (true, 16)
  | t_int32 => Some (true, 32) | t_int64 => Some (true, 64)
  | t_uint8 => Some (false, 8) | t_uint16 => Some (false, 16)
  | t_uint32 => Some (false, 32) | t_uint64 => Some (false, 64)
  | _ => None
  end.

Definition in_range (t : CType) (z : Z) : Prop :=
  match integral t with
  | Some (true, w) => - 2 ^ (w - 1) <= z < 2 ^ (w - 1)
  | Some (false, w) => 0 <= z < 2 ^ w
  | None => False
  end.

(** The values of a type. *)
Fixpoint has_type (t : CType) (v : Value) {struct v} : Prop :=
  match v with
  | VBool _ => t = t_bool
  | VInt z => in_range t z
  | VFloat bits => t = t_float /\ 0 <= bits < 2 ^ 32
  | VString _ => t = t_string
  | VVector l =>
      match t with
      | t_vector e => fold_right (fun x acc => has_type e x /\ acc) True l
      | _ => False
      end
  end.

(** Modelled from the spec: [argument_storage_t<T>] is missing.  Integers
    are widened to [int64_t], everything else is kept as itself. *)
Definition argument_storage_t (T : CType) : CType :=
  match integral T with
  | Some _ => t_int64
  | None => T
  end.

(** [static_cast<To>(v)] between a type and its storage type: an integer
    is converted to the width and signedness of [To], any other value is
    unchanged. *)
Definition static_cast (To : CType) (v : Value) : Value :=
  match integral To, v with
  | Some (true, w), VInt z => VInt (wrap_signed w z)
  | Some (false, w), VInt z => VInt (wrap_unsigned w z)
  | _, _ => v
  end.

(** The [int] held by the result of [GetArgument<int>]. *)
Definition int_value (v : Value) : Z :=
  match v with VInt z => z | _ => 0 end.

(** Modelled from the spec: [TypeTable::GetTypeName<T>()] and the printed
    form of a type id are missing; the name of the semantic type. *)
Fixpoint GetTypeName (t : CType) : string :=
  match t with
  | t_bool => "bool"
  | t_int8 => "int8" | t_int16 => "int16"
  | t_int32 => "int32" | t_int64 => "int64"
  | t_uint8 => "uint8" | t_uint16 => "uint16"
  | t_uint32 => "uint32" | t_uint64 => "uint64"
  | t_float => "float"
  | t_string => "string"
  | t_vector e => "list of " +:+ GetTypeName e
  end.

(** *** [Argument]

    Modelled from the spec: an argument has a name and a type-tagged
    value; its stored representation type is fixed at creation
    ([Argument::Store<S>]); a read at another type fails
    ([Argument::Get<S>]), and [Argument::IsType<S>] tells in advance. *)

Record Argument := mkArgument {
  get_name : string;
  stored_type : CType;
  stored_value : Value
}.

Definition Argument_Store (S : CType) (name : string) (v : Value) : Argument :=
  mkArgument name S v.

Definition Argument_IsType (S : CType) (arg : Argument) : bool :=
  bool_decide (stored_type arg = S).

Definition Argument_Get (S : CType) (arg : Argument) : Result Value :=
  if Argument_IsType S arg then Ok (stored_value arg)
  else DALI_FAIL TypeMismatch
         ("Invalid type of argument " +:+ dq +:+ get_name arg +:+ dq +:+
          ". Expected " +:+ GetTypeName S).

(** ** Tensor lists and the argument workspace
    ([dali/pipeline/data/tensor_list.h], [dali/core/tensor_shape.h],
    [dali/pipeline/workspace/workspace.h]; not part of the sources)

    Modelled from the spec: the workspace maps an argument-input name to
    the per-sample tensor values of the current batch.  A tensor list has
    an element type, one shape per sample and the elements of every
    sample; a sample holds [volume] elements, the product of its extents,
    and a shape without extents is [empty]. *)

Definition TensorShape := list Z.
Definition TensorListShape := list TensorShape.

Record TensorList := mkTensorList {
  tl_type : CType;
  tl_shape : TensorListShape;
  tl_data : list (list Value)
}.

(** Modelled from the spec: [volume] is missing.  The number of elements a
    sample of this shape holds. *)
Definition volume (sh : TensorShape) : Z := foldr Z.mul 1 sh.

(** [shape[i].empty()]: the shape has no extent. *)
Definition shape_empty (sh : TensorShape) : bool :=
  match sh with [] => true | _ => false end.

(** Modelled from the spec: [is_uniform] is missing.  Every sample has the
    shape of the first one. *)
Definition is_uniform (shape : TensorListShape) : bool :=
  match shape with
  | [] => true
  | first :: rest => forallb (fun sh => bool_decide (sh = first)) rest
  end.

(** Modelled from the spec: [operator<<] of [tensor_shape_print.h] is
    missing.  The shape as printed at the end of a message. *)
Definition print_sample_shape (sh : TensorShape) : string :=
  "{" +:+ String.concat ", " (map to_string sh) +:+ "}".
Definition print_shape (shape : TensorListShape) : string :=
  "{" +:+ String.concat ", " (map print_sample_shape shape) +:+ "}".

(** Modelled from the spec: [TensorList::tensor<T>] is missing.
    [value.tensor<T>(idx)[0]] is the first element of sample [idx]; outside
    the batch the access is undefined. *)
Definition tensor_first (value : TensorList) (idx : Z) : Result Value :=
  if bool_decide (0 <= idx) then
    match tl_data value !! Z.to_nat idx with
    | Some (x :: _) => Ok x
    | _ => DALI_FAIL OutOfBounds "sample index out of range"
    end
  else DALI_FAIL OutOfBounds "sample index out of range".

(** The data agrees with the shape and the declared element type: a
    sample holds [volume] elements of that type. *)
Definition TensorList_wf (value : TensorList) : Prop :=
  Forall2 (fun sh sample =>
             Z.of_nat (length sample) = volume sh /\
             Forall (has_type (tl_type value)) sample)
          (tl_shape value) (tl_data value).

Abbreviation ArgumentWorkspace := (gmap string TensorList).

(** Modelled from the spec: [ArgumentWorkspace::ArgumentInput(name)] is
    missing.  The tensor values bound to the argument-input name. *)
Definition ArgumentInput (ws : ArgumentWorkspace) (name : string) : Result TensorList :=
  match ws !! name with
  | Some value => Ok value
  | None => DALI_FAIL NoSuchArgumentInput
              ("Argument " +:+ dq +:+ name +:+ dq +:+ " not found.")
  end.

(** ** Schemas ([dali/pipeline/operator/op_schema.h]; not part of the
    sources)

    Modelled from the spec: a schema is identified by its type name and
    holds the declared argument names, each with a semantic type, an
    optional default value and a required flag, and the deprecated-alias
    mapping from an old name to a new name or to the mark that the
    argument was removed.  The registry maps a type name to its schema. *)

Record ValueInst := mkValueInst { value_type : CType; value_get : Value }.

Record ArgumentDecl := mkArgumentDecl {
  decl_type : CType;
  decl_default : option ValueInst;
  decl_required : bool
}.

Inductive DeprecatedArgMeta :=
| renamed_to (new_arg_name : string)
| removed.

Record OpSchema := mkOpSchema {
  schema_name : string;
  schema_arguments : gmap string ArgumentDecl;
  schema_deprecated : gmap string DeprecatedArgMeta
}.

Abbreviation SchemaRegistry := (gmap string OpSchema).

(** Modelled from the spec: [SchemaRegistry::TryGetSchema] is missing.  The
    schema registered under the name, or null. *)
Definition TryGetSchema (registry : SchemaRegistry) (name : string) : option OpSchema :=
  registry !! name.

(** Modelled from the spec: [OpSchema::HasArgument] is missing.
    [schema.HasArgument(name, true)]: the schema declares [name]. *)
Definition OpSchema_HasArgument (schema : OpSchema) (name : string) : bool :=
  bool_decide (is_Some (schema_arguments schema !! name)).

(** Modelled from the spec: [OpSchema::FindDefaultValue] is missing.  The
    optional default value declared for [name]. *)
Definition OpSchema_FindDefaultValue (schema : OpSchema) (name : string) : option ValueInst :=
  schema_arguments schema !! name ≫= decl_default.

(** Modelled from the spec: [OpSchema::HasArgumentDefaultValue] is missing.
    The schema declares a default for [name]. *)
Definition OpSchema_HasArgumentDefaultValue (schema : OpSchema) (name : string) : bool :=
  bool_decide (is_Some (OpSchema_FindDefaultValue schema name)).

(** Modelled from the spec: [OpSchema::GetDefaultValueForArgument<S>] is
    missing.  It returns the declared default, and fails with
    [UnknownArgument] if the schema declares no such argument and with
    [NoDefault] if it declares the argument but no default; a default of
    another type than [S] cannot be read at [S]. *)
Definition OpSchema_GetDefaultValueForArgument
    (S : CType) (schema : OpSchema) (name : string) : Result Value :=
  match schema_arguments schema !! name with
  | None =>
      DALI_FAIL UnknownArgument
        ("Argument " +:+ dq +:+ name +:+ dq +:+ " is not supported by operator " +:+
         dq +:+ schema_name schema +:+ dq +:+ ".")
  | Some decl =>
      match decl_default decl with
      | None =>
          DALI_FAIL NoDefault
            ("Argument " +:+ dq +:+ name +:+ dq +:+ " has no default value.")
      | Some inst =>
          if bool_decide (value_type inst = S) then Ok (value_get inst)
          else DALI_FAIL TypeMismatch
                 ("Unexpected type of the default value for argument " +:+
                  dq +:+ name +:+ dq +:+ ".")
      end
  end.

(** ** [OpSpec] ([dali/pipeline/operator/op_spec.h]) *)

Record InOutDeviceDesc := mkInOutDeviceDesc {
  desc_name : string;
  desc_device : string
}.

(** The data members of the class, in the order of their declaration.
    [schema_] points into the registry; a null pointer is [None].  The
    [int]s kept in the maps are indices into the vectors. *)
Record OpSpec := mkOpSpec {
  schema_name_ : string;
  schema_ : option OpSchema;
  arguments_ : list Argument;
  argument_idxs_ : gmap string Z;
  argument_inputs_ : list (string * Z);
  argument_input_idxs_ : gmap string Z;
  set_through_deprecated_arguments_ : gmap string string;
  output_name_idx_ : gmap (string * string) Z;
  inputs_ : list InOutDeviceDesc;
  outputs_ : list InOutDeviceDesc
}.

(** [OpSpec()] *)
Definition OpSpec_default : OpSpec :=
  mkOpSpec EmptyString None [] ∅ [] ∅ ∅ ∅ [] [].

Definition TensorName (name device : string) : string :=
  name +:+ "_" +:+ device.

Definition SchemaName (spec : OpSpec) : string := schema_name_ spec.

Definition SetSchema (registry : SchemaRegistry) (schema_name : string) (spec : OpSpec) : OpSpec :=
  mkOpSpec schema_name
    (if bool_decide (schema_name = EmptyString) then None
     else TryGetSchema registry schema_name)
    (arguments_ spec) (argument_idxs_ spec) (argument_inputs_ spec)
    (argument_input_idxs_ spec) (set_through_deprecated_arguments_ spec)
    (output_name_idx_ spec) (inputs_ spec) (outputs_ spec).

(** [OpSpec(schema_name)] *)
Definition OpSpec_new (registry : SchemaRegistry) (schema_name : string) : OpSpec :=
  SetSchema registry schema_name OpSpec_default.

Definition GetSchema (spec : OpSpec) : Result OpSchema :=
  match schema_ spec with
  | Some schema => Ok schema
  | None =>
      DALI_FAIL NoSchema
        ("No schema found for operator " +:+ dq +:+ SchemaName spec +:+ dq)
  end.

(** [v[i]] for an [int] index [i]. *)
Definition vector_at {A} (v : list A) (i : Z) : Result A :=
  if bool_decide (0 <= i) then
    match v !! Z.to_nat i with
    | Some x => Ok x
    | None => DALI_FAIL OutOfBounds "vector index out of range"
    end
  else DALI_FAIL OutOfBounds "vector index out of range".

(** Modelled from the spec: the macro [DALI_ENFORCE_VALID_INDEX(idx, n)] is
    missing.  The index is within [0, n). *)
Definition DALI_ENFORCE_VALID_INDEX (idx n : Z) : Result unit :=
  DALI_ENFORCE (bool_decide (0 <= idx) && bool_decide (idx < n)) InvalidIndex
    ("Index " +:+ to_string idx +:+ " out of range [0, " +:+ to_string n +:+ ").").

Definition NumInput (spec : OpSpec) : Z := int_of_size (length (inputs_ spec)).

Definition NumArgumentInput (spec : OpSpec) : Z :=
  int_of_size (length (argument_inputs_ spec)).

Definition NumRegularInput (spec : OpSpec) : Z :=
  to_int (NumInput spec - NumArgumentInput spec).

Definition NumOutput (spec : OpSpec) : Z := int_of_size (length (outputs_ spec)).

Definition Input (spec : OpSpec) (idx : Z) : Result string :=
  _ ← DALI_ENFORCE_VALID_INDEX idx (NumInput spec);
  d ← vector_at (inputs_ spec) idx;
  Ok (TensorName (desc_name d) (desc_device d)).

Definition InputName (spec : OpSpec) (idx : Z) : Result string :=
  _ ← DALI_ENFORCE_VALID_INDEX idx (NumInput spec);
  d ← vector_at (inputs_ spec) idx;
  Ok (desc_name d).

Definition InputDevice (spec : OpSpec) (idx : Z) : Result string :=
  _ ← DALI_ENFORCE_VALID_INDEX idx (NumInput spec);
  d ← vector_at (inputs_ spec) idx;
  Ok (desc_device d).

Definition IsArgumentInput (spec : OpSpec) (idx : Z) : Result bool :=
  _ ← DALI_ENFORCE_VALID_INDEX idx (NumInput spec);
  Ok (bool_decide (NumRegularInput spec <= idx)).

Definition ArgumentInputName (spec : OpSpec) (idx : Z) : Result string :=
  is_arg ← IsArgumentInput spec idx;
  _ ← DALI_ENFORCE is_arg InvalidIndex
        ("Index " +:+ to_string idx +:+
         " does not correspond to valid argument input.");
  p ← vector_at (argument_inputs_ spec) (to_int (idx - NumRegularInput spec));
  Ok (fst p).

Definition ArgumentInputIdx (spec : OpSpec) (name : string) : Result Z :=
  match argument_input_idxs_ spec !! name with
  | Some i => Ok i
  | None =>
      DALI_FAIL NoSuchArgumentInput
        ("No such argument input: " +:+ dq +:+ name +:+ dq)
  end.

Definition Output (spec : OpSpec) (idx : Z) : Result string :=
  _ ← DALI_ENFORCE_VALID_INDEX idx (NumOutput spec);
  d ← vector_at (outputs_ spec) idx;
  Ok (TensorName (desc_name d) (desc_device d)).

Definition OutputName (spec : OpSpec) (idx : Z) : Result string :=
  _ ← DALI_ENFORCE_VALID_INDEX idx (NumOutput spec);
  d ← vector_at (outputs_ spec) idx;
  Ok (desc_name d).

Definition OutputDevice (spec : OpSpec) (idx : Z) : Result string :=
  _ ← DALI_ENFORCE_VALID_INDEX idx (NumOutput spec);
  d ← vector_at (outputs_ spec) idx;
  Ok (desc_device d).

Definition OutputIdxForName (spec : OpSpec) (name device : string) : Result Z :=
  match output_name_idx_ spec !! (name, device) with
  | Some i => Ok i
  | None =>
      DALI_FAIL InvalidIndex
        ("Output with name '" +:+ name +:+ "' and device '" +:+ device +:+
         "' does not exist.")
  end.

Definition HasArgument (spec : OpSpec) (name : string) : bool :=
  bool_decide (is_Some (argument_idxs_ spec !! name)).

Definition HasTensorArgument (spec : OpSpec) (name : string) : bool :=
  bool_decide (is_Some (argument_input_idxs_ spec !! name)).

Definition ArgumentDefined (spec : OpSpec) (name : string) : bool :=
  HasArgument spec name || HasTensorArgument spec name.

Definition ListArguments (spec : OpSpec) : list string :=
  map get_name (arguments_ spec) ++ map fst (argument_inputs_ spec).

(** *** [CheckScalarArgumentShape] *)

(** The loop [for (i = 0; i < shape.num_samples() && valid_shape; i++)]
    over the remaining samples. *)
Fixpoint scalar_shape_loop (samples : list TensorShape) (valid_shape : bool) : bool :=
  match samples with
  | [] => valid_shape
  | sh :: rest =>
      if valid_shape
      then scalar_shape_loop rest ((volume sh =? 1)%Z || shape_empty sh)
      else valid_shape
  end.

Definition non_uniform_message (name : string) : string :=
  "Arguments should be passed as uniform TensorLists. Argument " +:+ dq +:+ name +:+
  dq +:+ " is not uniform. To access non-uniform argument inputs use " +:+
  "ArgumentWorkspace::ArgumentInput method directly.".

Definition unexpected_shape_message
    (name : string) (batch_size : Z) (shape : TensorListShape) : string :=
  "Unexpected shape of argument " +:+ dq +:+ name +:+ dq +:+
  ". Expected batch of " +:+ to_string batch_size +:+
  " scalars or a batch of tensors containing one element per sample. Got:" +:+
  nl +:+ print_shape shape.

Definition CheckScalarArgumentShape
    (shape : TensorListShape) (batch_size : Z) (name : string)
    (should_throw : bool) : Result bool :=
  _ ← DALI_ENFORCE (is_uniform shape) NonUniformArgument (non_uniform_message name);
  let valid_shape := scalar_shape_loop shape true in
  _ ← (if should_throw
       then DALI_ENFORCE valid_shape ShapeMismatch
              (unexpected_shape_message name batch_size shape)
       else Ok tt);
  Ok valid_shape.

(** *** [GetArgument] and [TryGetArgument] *)

Definition missing_workspace_message (name : string) : string :=
  "Tensor value is unexpected for argument " +:+ dq +:+ name +:+ dq +:+ ".".

Definition unexpected_type_message (name : string) (T got : CType) : string :=
  "Unexpected type of argument " +:+ dq +:+ name +:+ dq +:+ ". Expected " +:+
  GetTypeName T +:+ " and got " +:+ GetTypeName got.

(** [IsType<T>(id)] *)
Definition IsType (T : CType) (id : CType) : bool := bool_decide (id = T).

(** The body of [GetArgumentImpl<T, S>].  [GetArgument_int] stands for the
    member call [GetArgument<int>(...)] made inside the body, which takes
    the default arguments [ws = nullptr] and [idx = 0]. *)
Definition GetArgumentImpl_body
    (GetArgument_int : string -> Result Value)
    (T S : CType) (spec : OpSpec) (name : string)
    (ws : option ArgumentWorkspace) (idx : Z) : Result Value :=
  (* Search for the argument in tensor arguments first *)
  if HasTensorArgument spec name then
    match ws with
    | None => DALI_FAIL MissingContext (missing_workspace_message name)
    | Some w =>
        value ← ArgumentInput w name;
        max_batch_size ← GetArgument_int "max_batch_size";
        _ ← CheckScalarArgumentShape (tl_shape value) (int_value max_batch_size) name true;
        _ ← DALI_ENFORCE (IsType T (tl_type value)) TypeMismatch
              (unexpected_type_message name T (tl_type value));
        x ← tensor_first value idx;
        Ok (static_cast T x)
    end
  else
    (* Search for the argument locally *)
    match argument_idxs_ spec !! name with
    | Some i =>
        (* Found locally - return *)
        arg ← vector_at (arguments_ spec) i;
        v ← Argument_Get S arg;
        Ok (static_cast T v)
    | None =>
        (* Argument wasn't present locally, get the default from the
           associated schema *)
        schema ← GetSchema spec;
        v ← OpSchema_GetDefaultValueForArgument S schema name;
        Ok (static_cast T v)
    end.

(** A call without workspace never reaches the inner member call, so the
    recursion of the source is closed after one unfolding. *)
Definition GetArgument_no_workspace (T : CType) (spec : OpSpec) (name : string) : Result Value :=
  GetArgumentImpl_body
    (fun _ => DALI_FAIL MissingContext (missing_workspace_message "max_batch_size"))
    T (argument_storage_t T) spec name None 0.

Definition GetArgumentImpl
    (T S : CType) (spec : OpSpec) (name : string)
    (ws : option ArgumentWorkspace) (idx : Z) : Result Value :=
  GetArgumentImpl_body (GetArgument_no_workspace t_int32 spec) T S spec name ws idx.

Definition GetArgument
    (T : CType) (spec : OpSpec) (name : string)
    (ws : option ArgumentWorkspace) (idx : Z) : Result Value :=
  GetArgumentImpl T (argument_storage_t T) spec name ws idx.

(** [TryGetArgumentImpl<T, S>(result, name, ws, idx)].  [Ok (Some v)]: the
    call returned [true] after the assignment [result = v]; [Ok None]: it
    returned [false] and left [result] alone. *)
Definition TryGetArgumentImpl
    (T S : CType) (spec : OpSpec) (name : string)
    (ws : option ArgumentWorkspace) (idx : Z) : Result (option Value) :=
  (* Search for the argument in tensor arguments first *)
  if HasTensorArgument spec name then
    match ws with
    | None => Ok None
    | Some w =>
        value ← ArgumentInput w name;
        max_batch_size ← GetArgument t_int32 spec "max_batch_size" None 0;
        valid ← CheckScalarArgumentShape (tl_shape value) (int_value max_batch_size) name false;
        if negb valid then Ok None
        else if negb (IsType T (tl_type value)) then Ok None
        else
          x ← tensor_first value idx;
          Ok (Some x)
    end
  else
    (* Search for the argument locally *)
    let arg_it := argument_idxs_ spec !! name in
    schema ← GetSchema spec;
    match arg_it with
    | Some i =>
        (* Found locally - return *)
        arg ← vector_at (arguments_ spec) i;
        if Argument_IsType S arg then
          v ← Argument_Get S arg;
          Ok (Some (static_cast T v))
        else Ok None
    | None =>
        if OpSchema_HasArgument schema name && OpSchema_HasArgumentDefaultValue schema name
        then
          (* Argument wasn't present locally, get the default from the
             associated schema if any *)
          match OpSchema_FindDefaultValue schema name with
          | Some schema_val =>
              if bool_decide (value_type schema_val = S)
              then Ok (Some (static_cast T (value_get schema_val)))
              else Ok None
          | None => Ok None
          end
        else Ok None
    end.

Definition TryGetArgument
    (T : CType) (spec : OpSpec) (name : string)
    (ws : option ArgumentWorkspace) (idx : Z) : Result (option Value) :=
  TryGetArgumentImpl T (argument_storage_t T) spec name ws idx.

(** *** Building an [OpSpec]

    [AddArg], [AddArgIfNotExisting], [SetArg] and [AddInitializedArg] are
    defined in the header.  The bodies of [SetInitializedArg],
    [EnforceNoAliasWithDeprecated], [AddInput], [AddArgumentInput] and
    [AddOutput] are in [op_spec.cc], which is not part of the sources. *)

(** Modelled from the spec: [EnforceNoAliasWithDeprecated] is missing.  It
    checks whether [arg_name] was already set through a deprecated
    argument, using the provenance record [set_through_deprecated_arguments_]
    (regular argument -> deprecated argument), and rejects the double
    specification. *)
Definition EnforceNoAliasWithDeprecated (spec : OpSpec) (arg_name : string) : Result unit :=
  match set_through_deprecated_arguments_ spec !! arg_name with
  | None => Ok tt
  | Some deprecated =>
      DALI_FAIL ConflictingSpecification
        ("Operator " +:+ SchemaName spec +:+ " got an unexpected '" +:+ deprecated +:+
         "' deprecated argument when '" +:+ arg_name +:+ "' was already provided.")
  end.

(** Sets or adds: the argument replaces the one stored under [name], or is
    appended and indexed. *)
Definition store_argument (name : string) (arg : Argument) (spec : OpSpec) : OpSpec :=
  match argument_idxs_ spec !! name with
  | Some i =>
      mkOpSpec (schema_name_ spec) (schema_ spec)
        (<[Z.to_nat i := arg]> (arguments_ spec)) (argument_idxs_ spec)
        (argument_inputs_ spec) (argument_input_idxs_ spec)
        (set_through_deprecated_arguments_ spec)
        (output_name_idx_ spec) (inputs_ spec) (outputs_ spec)
  | None =>
      mkOpSpec (schema_name_ spec) (schema_ spec)
        (arguments_ spec ++ [arg])
        (<[name := int_of_size (length (arguments_ spec))]> (argument_idxs_ spec))
        (argument_inputs_ spec) (argument_input_idxs_ spec)
        (set_through_deprecated_arguments_ spec)
        (output_name_idx_ spec) (inputs_ spec) (outputs_ spec)
  end.

Definition record_set_through (new_name old_name : string) (spec : OpSpec) : OpSpec :=
  mkOpSpec (schema_name_ spec) (schema_ spec) (arguments_ spec) (argument_idxs_ spec)
    (argument_inputs_ spec) (argument_input_idxs_ spec)
    (<[new_name := old_name]> (set_through_deprecated_arguments_ spec))
    (output_name_idx_ spec) (inputs_ spec) (outputs_ spec).

(** Modelled from the spec: [SetInitializedArg] is missing.  Setting an
    argument under a deprecated name rewrites it to the new name, or
    drops it if the alias says that the argument was removed; if the new
    name is already set the call is rejected as a conflicting double
    specification; a name that was already set through its deprecated
    alias is rejected as well.  Otherwise the argument is set or added. *)
Definition SetInitializedArg (arg_name : string) (arg : Argument) (spec : OpSpec) : Result OpSpec :=
  match schema_ spec ≫= (fun schema => schema_deprecated schema !! arg_name) with
  | Some removed => Ok spec
  | Some (renamed_to new_arg_name) =>
      _ ← DALI_ENFORCE (negb (bool_decide (is_Some (argument_idxs_ spec !! new_arg_name))))
            ConflictingSpecification
            ("Operator " +:+ SchemaName spec +:+ " got an unexpected '" +:+ arg_name +:+
             "' deprecated argument when '" +:+ new_arg_name +:+ "' was already provided.");
      Ok (store_argument new_arg_name
            (mkArgument new_arg_name (stored_type arg) (stored_value arg))
            (record_set_through new_arg_name arg_name spec))
  | None =>
      _ ← EnforceNoAliasWithDeprecated spec arg_name;
      Ok (store_argument arg_name arg spec)
  end.

(** [SetArg<T>(name, val)] *)
Definition SetArg (T : CType) (name : string) (val : Value) (spec : OpSpec) : Result OpSpec :=
  let S := argument_storage_t T in
  SetInitializedArg name (Argument_Store S name (static_cast S val)) spec.

(** [SetArg<T>(name, const std::vector<T> &val)] *)
Definition SetArg_vector (T : CType) (name : string) (val : list Value) (spec : OpSpec) : Result OpSpec :=
  let S := argument_storage_t T in
  let V := t_vector S in
  SetInitializedArg name (Argument_Store V name (VVector (map (static_cast S) val))) spec.

Definition already_exists_message (name : string) : string :=
  "AddArg failed. Argument with name " +:+ dq +:+ name +:+ dq +:+ " already exists. ".

(** [AddArg<T>(name, val)] *)
Definition AddArg (T : CType) (name : string) (val : Value) (spec : OpSpec) : Result OpSpec :=
  _ ← EnforceNoAliasWithDeprecated spec name;
  _ ← DALI_ENFORCE (negb (bool_decide (is_Some (argument_idxs_ spec !! name))))
        ConflictingSpecification (already_exists_message name);
  SetArg T name val spec.

(** [AddArgIfNotExisting<T>(name, val)] *)
Definition AddArgIfNotExisting (T : CType) (name : string) (val : Value) (spec : OpSpec) : Result OpSpec :=
  if bool_decide (is_Some (argument_idxs_ spec !! name)) then Ok spec
  else SetArg T name val spec.

(** [AddInitializedArg(name, arg)] *)
Definition AddInitializedArg (name : string) (arg : Argument) (spec : OpSpec) : Result OpSpec :=
  _ ← EnforceNoAliasWithDeprecated spec name;
  _ ← DALI_ENFORCE (negb (bool_decide (is_Some (argument_idxs_ spec !! name))))
        ConflictingSpecification (already_exists_message name);
  SetInitializedArg name arg spec.

Definition valid_device (device : string) : bool :=
  bool_decide (device = "gpu") || bool_decide (device = "cpu").

(** Modelled from the spec: [AddInput] is missing.  It appends the
    (name, device) pair, the device being the host ([cpu]) or the
    accelerator ([gpu]), to the ordered inputs: the order in which inputs
    are added is the order in which the operator receives them.  The
    header declares [regular_input] (true by default); neither the spec
    nor the header makes the call depend on it, and the pair is appended
    in both cases. *)
Definition AddInput (name device : string) (regular_input : bool) (spec : OpSpec) : Result OpSpec :=
  _ ← DALI_ENFORCE (valid_device device) InvalidDevice
        ("Invalid device specifier " +:+ dq +:+ device +:+ dq +:+ " for input " +:+
         dq +:+ name +:+ dq +:+ ".");
  Ok (mkOpSpec (schema_name_ spec) (schema_ spec) (arguments_ spec) (argument_idxs_ spec)
        (argument_inputs_ spec) (argument_input_idxs_ spec)
        (set_through_deprecated_arguments_ spec) (output_name_idx_ spec)
        (inputs_ spec ++ [mkInOutDeviceDesc name device]) (outputs_ spec)).

(** Modelled from the spec: [AddArgumentInput] is missing.  The input may
    be added only if the corresponding argument exists in the schema; an
    argument name cannot be a literal argument and a tensor argument at
    once, and the names of argument inputs are unique.  The argument name
    is recorded with the index its input takes in [inputs_], and the
    input itself is added on the host. *)
Definition AddArgumentInput (arg_name inp_name : string) (spec : OpSpec) : Result OpSpec :=
  _ ← DALI_ENFORCE (negb (HasArgument spec arg_name)) ConflictingSpecification
        ("Argument '" +:+ arg_name +:+ "' is already specified.");
  _ ← DALI_ENFORCE (negb (HasTensorArgument spec arg_name)) ConflictingSpecification
        ("Argument input '" +:+ arg_name +:+ "' is already specified.");
  schema ← GetSchema spec;
  _ ← DALI_ENFORCE (OpSchema_HasArgument schema arg_name) UnknownArgument
        ("Argument '" +:+ arg_name +:+ "' is not part of the operator's schema.");
  let idx := int_of_size (length (inputs_ spec)) in
  AddInput inp_name "cpu" false
    (mkOpSpec (schema_name_ spec) (schema_ spec) (arguments_ spec) (argument_idxs_ spec)
       (argument_inputs_ spec ++ [(arg_name, idx)])
       (<[arg_name := idx]> (argument_input_idxs_ spec))
       (set_through_deprecated_arguments_ spec) (output_name_idx_ spec)
       (inputs_ spec) (outputs_ spec)).

(** Modelled from the spec: [AddOutput] is missing.  It appends the
    (name, device) pair to the ordered outputs and indexes it for
    [OutputIdxForName]; the same output cannot be added twice. *)
Definition AddOutput (name device : string) (spec : OpSpec) : Result OpSpec :=
  _ ← DALI_ENFORCE (valid_device device) InvalidDevice
        ("Invalid device specifier " +:+ dq +:+ device +:+ dq +:+ " for output " +:+
         dq +:+ name +:+ dq +:+ ".");
  _ ← DALI_ENFORCE (negb (bool_decide (is_Some (output_name_idx_ spec !! (name, device)))))
        ConflictingSpecification
        ("Output '" +:+ name +:+ "' with device '" +:+ device +:+
         "' already added to OpSpec");
  Ok (mkOpSpec (schema_name_ spec) (schema_ spec) (arguments_ spec) (argument_idxs_ spec)
        (argument_inputs_ spec) (argument_input_idxs_ spec)
        (set_through_deprecated_arguments_ spec)
        (<[(name, device) := int_of_size (length (outputs_ spec))]> (output_name_idx_ spec))
        (inputs_ spec) (outputs_ spec ++ [mkInOutDeviceDesc name device])).

(** The calls that build an [OpSpec], and a sequence of them run from left
    to right; an exception ends the run.  [AddInput] is public with its
    third parameter, so a caller may pass either value. *)
Inductive BuilderCall :=
| CallAddArg (T : CType) (name : string) (val : Value)
| CallSetArg (T : CType) (name : string) (val : Value)
| CallAddInput (name device : string) (regular_input : bool)
| CallAddArgumentInput (arg_name inp_name : string)
| CallAddOutput (name device : string).

Definition run_call (c : BuilderCall) (spec : OpSpec) : Result OpSpec :=
  match c with
  | CallAddArg T name val => AddArg T name val spec
  | CallSetArg T name val => SetArg T name val spec
  | CallAddInput name device regular_input => AddInput name device regular_input spec
  | CallAddArgumentInput arg_name inp_name => AddArgumentInput arg_name inp_name spec
  | CallAddOutput name device => AddOutput name device spec
  end.

Fixpoint run_calls (cs : list BuilderCall) (spec : OpSpec) : Result OpSpec :=
  match cs with
  | [] => Ok spec
  | c :: rest => spec' ← run_call c spec; run_calls rest spec'
  end.

(** ** Decode dispatch
    ([dali/operators/decoder/nvjpeg/nvjpeg_decoder_decoupled_api.h] is not
    part of the sources; its test passes [hybrid_huffman_threshold] as an
    [unsigned int], the largest being [UINT_MAX]) *)

Module Decode.

(** Modelled from the spec: a decode task holds the image format, the
    dimension hints and the chosen backend tag (software, hybrid,
    hardware).  The formats are the ones the decoder test feeds. *)
Inductive ImageFormat := JPEG | PNG | BMP | TIFF.

#[global] Instance ImageFormat_eq_dec : EqDecision ImageFormat.
Proof. solve_decision. Defined.

Inductive Backend := HardwareDecoder | HybridBackend | HostSoftware.

#[global] Instance Backend_eq_dec : EqDecision Backend.
Proof. solve_decision. Defined.

(** One sample of a batch, after its header was parsed. *)
Record DecodeTask := mkDecodeTask {
  task_format : ImageFormat;
  width_hint : Z;
  height_hint : Z
}.

(** What the choice depends on besides the sample: the capability probed
    at startup, the configured threshold, and the capacity the
    accelerator memory pool has or can grow to. *)
Record DispatchConfig := mkDispatchConfig {
  hw_decoder_capability : bool;
  hybrid_huffman_threshold : Z;
  pool_capacity : Z;
  pool_growth_limit : Z
}.

(** Modelled from the spec: [pixel_count = width_hint * height_hint]. *)
Definition pixel_count (task : DecodeTask) : Z := width_hint task * height_hint task.

(** Modelled from the spec: non-JPEG codecs are handled by the host
    software backend only. *)
Definition hardware_supports (f : ImageFormat) : bool := bool_decide (f = JPEG).
Definition hybrid_supports (f : ImageFormat) : bool := bool_decide (f = JPEG).

(** Modelled from the spec: the pool has, or can grow to, sufficient
    capacity for the sample. *)
Definition pool_sufficient (cfg : DispatchConfig) (task : DecodeTask) : bool :=
  bool_decide (pixel_count task <= pool_capacity cfg) ||
  bool_decide (pixel_count task <= pool_growth_limit cfg).

(** Modelled from the spec: below the threshold the cost of accelerator
    dispatch outweighs the benefit; the accelerator tiers are for the
    samples whose pixel count exceeds the configured threshold.  The test
    says the same of its two extremes: with the largest threshold the size
    is never above it, with the threshold 0 it always is. *)
Definition exceeds_threshold (cfg : DispatchConfig) (task : DecodeTask) : bool :=
  bool_decide (hybrid_huffman_threshold cfg < pixel_count task).

Section Selection.

(** The spec names conditions without which the hardware decoder is not
    applicable; it does not say that they suffice.  What else the hardware
    tier asks of a sample is left open here. *)
Variable hardware_accepts : DispatchConfig -> DecodeTask -> bool.

(** Modelled from the spec: the hardware decoder is applicable only if the
    capability was detected at startup and the format is one the hardware
    engine supports and the memory pool has, or can grow to, sufficient
    capacity for the sample.  A threshold at its maximum forces the host
    software backend for every JPEG sample, so the hardware tier, too, is
    for samples above the threshold. *)
Definition hardware_applicable (cfg : DispatchConfig) (task : DecodeTask) : bool :=
  hw_decoder_capability cfg && hardware_supports (task_format task) &&
  pool_sufficient cfg task && exceeds_threshold cfg task &&
  hardware_accepts cfg task.

(** Modelled from the spec: the hybrid backend is applicable when the pixel
    count exceeds the configured threshold and the format supports
    partial-host/partial-accelerator decoding. *)
Definition hybrid_applicable (cfg : DispatchConfig) (task : DecodeTask) : bool :=
  exceeds_threshold cfg task && hybrid_supports (task_format task).

(** Modelled from the spec: the backend selection of the decode dispatch
    engine is missing.  Selection order, first applicable wins: hardware
    decoder, hybrid backend, host software backend (the universal
    fallback). *)
Definition select_backend (cfg : DispatchConfig) (task : DecodeTask) : Backend :=
  if hardware_applicable cfg task then HardwareDecoder
  else if hybrid_applicable cfg task then HybridBackend
  else HostSoftware.

End Selection.

End Decode.

(** ** [StdFileStream] ([dali/util/std_file.cc]) *)

Module StdFile.

(** The C library as the class sees it.  An open [FILE] is the bytes the
    stream delivers and the read position; [fopen] yields a stream or the
    [errno] it failed with.  [stat] is a call of its own on the path: what
    it reports need not be the number of bytes a stream delivers (a
    directory can be opened, has a size, and delivers nothing). *)
Record FILE := mkFILE {
  file_bytes : list Z;
  file_pos : Z
}.

Record libc := mkLibc {
  files : gmap string (list Z);      (* what can be opened for reading, and
                                        the bytes a stream on it delivers *)
  open_errno : string -> Z;         (* errno of fopen on any other path *)
  st_size : gmap string Z;          (* the size stat reports, for the paths
                                        it can examine *)
  stat_errno : string -> Z;         (* errno of stat on any other path *)
  max_offset : string -> option Z;  (* the largest offset a stream on the
                                        file can be moved to; nothing for
                                        a file without positions, such as
                                        a pipe *)
  seek_errno : string -> Z -> Z;    (* errno of fseek on the file for a
                                        refused offset *)
  strerror : Z -> string
}.

Definition EINVAL : Z := 22.
Definition ENOENT : Z := 2.

(** [std::fopen(path, "rb")] *)
Definition fopen (os : libc) (path : string) : Z + FILE :=
  match files os !! path with
  | Some bytes => inr (mkFILE bytes 0)
  | None => inl (open_errno os path)
  end.

Inductive Whence := SEEK_SET | SEEK_CUR | SEEK_END.

(** [std::fseek] on a stream [fp] opened on [file]: the stream moved to the
    offset, or the [errno] of an offset the file system refuses: any
    offset of a file without positions, one before the start of the file,
    or one beyond the largest offset supported. *)
Definition fseek (os : libc) (file : string) (fp : FILE) (pos : Z) (whence : Whence) : Z + FILE :=
  let base := match whence with
              | SEEK_SET => 0
              | SEEK_CUR => file_pos fp
              | SEEK_END => Z.of_nat (length (file_bytes fp))
              end in
  match max_offset os file with
  | Some limit =>
      if bool_decide (0 <= base + pos <= limit)
      then inr (mkFILE (file_bytes fp) (base + pos))
      else inl (seek_errno os file (base + pos))
  | None => inl (seek_errno os file (base + pos))
  end.

Definition ftell (fp : FILE) : Z := file_pos fp.

(** [std::fread(buffer, 1, n_bytes, fp)]: the bytes put into the buffer and
    the advanced stream. *)
Definition fread (n_bytes : Z) (fp : FILE) : list Z * FILE :=
  let got := take (Z.to_nat n_bytes) (drop (Z.to_nat (file_pos fp)) (file_bytes fp)) in
  (got, mkFILE (file_bytes fp) (file_pos fp + Z.of_nat (length got))).

(** [stat(path, &sb)]: [sb.st_size], or [errno]. *)
Definition stat (os : libc) (path : string) : Z + Z :=
  match st_size os !! path with
  | Some size => inr size
  | None => inl (stat_errno os path)
  end.

(** The object: [FileStream::path_] and the [FILE *fp_]. *)
Record StdFileStream := mkStdFileStream {
  path_ : string;
  fp_ : option FILE
}.

Definition could_not_open_message (os : libc) (path : string) (errno : Z) : string :=
  "Could not open file " +:+ path +:+ ": " +:+ strerror os errno.

(** [StdFileStream::StdFileStream(path)] *)
Definition StdFileStream_new (os : libc) (path : string) : Result StdFileStream :=
  match fopen os path with
  | inr fp => Ok (mkStdFileStream path (Some fp))
  | inl errno => DALI_FAIL OpenFailed (could_not_open_message os path errno)
  end.

(** [Close()] *)
Definition Close (s : StdFileStream) : StdFileStream :=
  match fp_ s with
  | Some _ => mkStdFileStream (path_ s) None
  | None => s
  end.

(** [SeekRead(pos, whence)]; on a closed stream the call is undefined. *)
Definition SeekRead (os : libc) (pos : Z) (whence : Whence) (s : StdFileStream) : Result StdFileStream :=
  match fp_ s with
  | Some fp =>
      match fseek os (path_ s) fp pos whence with
      | inr fp' => Ok (mkStdFileStream (path_ s) (Some fp'))
      | inl errno => DALI_FAIL IOFailed ("Seek operation failed: " +:+ strerror os errno)
      end
  | None => DALI_FAIL OutOfBounds "stream is closed"
  end.

(** [TellRead()] *)
Definition TellRead (s : StdFileStream) : Result Z :=
  match fp_ s with
  | Some fp => Ok (ftell fp)
  | None => DALI_FAIL OutOfBounds "stream is closed"
  end.

(** [Read(buffer, n_bytes)]: the bytes read ([n_read] is their number) and
    the stream after the read. *)
Definition Read (n_bytes : Z) (s : StdFileStream) : Result (list Z * StdFileStream) :=
  match fp_ s with
  | Some fp =>
      let '(got, fp') := fread n_bytes fp in
      Ok (got, mkStdFileStream (path_ s) (Some fp'))
  | None => DALI_FAIL OutOfBounds "stream is closed"
  end.

(** [Size()] *)
Definition Size (os : libc) (s : StdFileStream) : Result Z :=
  match stat os (path_ s) with
  | inr size => Ok size
  | inl errno =>
      DALI_FAIL IOFailed ("Unable to stat file " +:+ path_ s +:+ ": " +:+ strerror os errno)
  end.

(** [StdFileStream::~StdFileStream()] *)
Definition StdFileStream_delete (s : StdFileStream) : StdFileStream := Close s.

End StdFile.

(** ** Further members of [OpSpec] and of [StdFileStream] *)

(** [std::string::operator<]: the lexicographic order on the characters. *)
Definition string_lt (a b : string) : bool := String.ltb a b.

(** [std::pair::operator<] on two pairs of strings. *)
Definition pair_lt (a b : string * string) : bool :=
  string_lt (fst a) (fst b) ||
  (negb (string_lt (fst b) (fst a)) && string_lt (snd a) (snd b)).

(** [InOutDeviceDesc::operator<] *)
Definition InOutDeviceDesc_lt (d other : InOutDeviceDesc) : bool :=
  pair_lt (desc_name d, desc_device d) (desc_name other, desc_device other).

(** [MutableInput(idx)] and [MutableOutput(idx)] return a reference into
    the vector; [MutableInput] reads it, [assign_MutableInput] is the
    assignment [MutableInput(idx) = d] through it. *)
Definition MutableInput (spec : OpSpec) (idx : Z) : Result InOutDeviceDesc :=
  _ ← DALI_ENFORCE_VALID_INDEX idx (NumInput spec);
  vector_at (inputs_ spec) idx.

Definition assign_MutableInput (idx : Z) (d : InOutDeviceDesc) (spec : OpSpec) : Result OpSpec :=
  _ ← DALI_ENFORCE_VALID_INDEX idx (NumInput spec);
  _ ← vector_at (inputs_ spec) idx;
  Ok (mkOpSpec (schema_name_ spec) (schema_ spec) (arguments_ spec) (argument_idxs_ spec)
        (argument_inputs_ spec) (argument_input_idxs_ spec)
        (set_through_deprecated_arguments_ spec) (output_name_idx_ spec)
        (<[Z.to_nat idx := d]> (inputs_ spec)) (outputs_ spec)).

Definition MutableOutput (spec : OpSpec) (idx : Z) : Result InOutDeviceDesc :=
  _ ← DALI_ENFORCE_VALID_INDEX idx (NumOutput spec);
  vector_at (outputs_ spec) idx.

Definition assign_MutableOutput (idx : Z) (d : InOutDeviceDesc) (spec : OpSpec) : Result OpSpec :=
  _ ← DALI_ENFORCE_VALID_INDEX idx (NumOutput spec);
  _ ← vector_at (outputs_ spec) idx;
  Ok (mkOpSpec (schema_name_ spec) (schema_ spec) (arguments_ spec) (argument_idxs_ spec)
        (argument_inputs_ spec) (argument_input_idxs_ spec)
        (set_through_deprecated_arguments_ spec) (output_name_idx_ spec)
        (inputs_ spec) (<[Z.to_nat idx := d]> (outputs_ spec))).

(** Modelled from the spec: [detail::convert_vector<T>] and
    [detail::copy_vector] of [copy_vector_helper.h] are missing.  The
    elements of the sequence are converted one by one. *)
Definition convert_vector (T : CType) (v : Value) : Value :=
  match v with
  | VVector l => VVector (map (static_cast T) l)
  | _ => v
  end.

(** [GetRepeatedArgumentImpl<T, S>(name)] *)
Definition GetRepeatedArgumentImpl
    (T S : CType) (spec : OpSpec) (name : string) : Result Value :=
  let V := t_vector S in
  (* Search for the argument locally *)
  match argument_idxs_ spec !! name with
  | Some i =>
      (* Found locally - return *)
      arg ← vector_at (arguments_ spec) i;
      v ← Argument_Get V arg;
      Ok (convert_vector T v)
  | None =>
      (* Argument wasn't present locally, get the default from the
         associated schema *)
      schema ← GetSchema spec;
      v ← OpSchema_GetDefaultValueForArgument V schema name;
      Ok (convert_vector T v)
  end.

Definition GetRepeatedArgument (T : CType) (spec : OpSpec) (name : string) : Result Value :=
  GetRepeatedArgumentImpl T (argument_storage_t T) spec name.

(** [TryGetRepeatedArgumentImpl<S, C>(result, name)], where [T] is the
    value type of the collection [C]; the result is read as for
    [TryGetArgumentImpl]. *)
Definition TryGetRepeatedArgumentImpl
    (T S : CType) (spec : OpSpec) (name : string) : Result (option Value) :=
  let V := t_vector S in
  (* Search for the argument locally *)
  let arg_it := argument_idxs_ spec !! name in
  schema ← GetSchema spec;
  match arg_it with
  | Some i =>
      (* Found locally - return *)
      arg ← vector_at (arguments_ spec) i;
      if Argument_IsType V arg then
        v ← Argument_Get V arg;
        Ok (Some (convert_vector T v))
      else Ok None
  | None =>
      if OpSchema_HasArgument schema name && OpSchema_HasArgumentDefaultValue schema name
      then
        (* Argument wasn't present locally, get the default from the
           associated schema if any *)
        match OpSchema_FindDefaultValue schema name with
        | Some schema_val =>
            if bool_decide (value_type schema_val = V)
            then Ok (Some (convert_vector T (value_get schema_val)))
            else Ok None
        | None => Ok None
        end
      else Ok None
  end.

Definition TryGetRepeatedArgument (T : CType) (spec : OpSpec) (name : string) : Result (option Value) :=
  TryGetRepeatedArgumentImpl T (argument_storage_t T) spec name.

(** Every index kept in [argument_idxs_] is a position of [arguments_]. *)
Definition argument_idxs_valid (spec : OpSpec) : Prop :=
  forall (name : string) (i : Z),
    argument_idxs_ spec !! name = Some i ->
    0 <= i < Z.of_nat (length (arguments_ spec)).

(** ** Vocabulary of the statements *)

(** A message names [part]. *)
Definition mentions (msg part : string) : Prop :=
  exists pre post, msg = pre +:+ part +:+ post.

(** The test the loop of [CheckScalarArgumentShape] applies to a sample. *)
Definition scalar_sample (sh : TensorShape) : bool :=
  (volume sh =? 1)%Z || shape_empty sh.

(** The name under which [SetInitializedArg] stores an argument set as
    [name]: the new name of a renamed alias, nothing for a removed one, the
    name itself otherwise. *)
Definition resolve_alias (spec : OpSpec) (name : string) : option string :=
  match schema_ spec ≫= (fun schema => schema_deprecated schema !! name) with
  | Some removed => None
  | Some (renamed_to new_arg_name) => Some new_arg_name
  | None => Some name
  end.

(** The argument inputs are counted among the inputs. *)
Definition argument_inputs_counted (spec : OpSpec) : Prop :=
  (length (argument_inputs_ spec) <= length (inputs_ spec))%nat.

(** The argument inputs are the last inputs: the input index recorded for
    the [k]-th argument input is the [k]-th position after the regular
    inputs, which is where the accessors look for it. *)
Definition argument_inputs_at_tail (spec : OpSpec) : Prop :=
  forall (k : nat) (name : string) (i : Z),
    argument_inputs_ spec !! k = Some (name, i) ->
    i = NumRegularInput spec + Z.of_nat k.

(** The inputs given to [AddInput] in a sequence of calls, and the
    (argument name, input name) pairs given to [AddArgumentInput], in the
    order of the calls. *)
Definition added_input (c : BuilderCall) : option InOutDeviceDesc :=
  match c with
  | CallAddInput name device _ => Some (mkInOutDeviceDesc name device)
  | _ => None
  end.

Definition added_argument_input (c : BuilderCall) : option (string * string) :=
  match c with
  | CallAddArgumentInput arg_name inp_name => Some (arg_name, inp_name)
  | _ => None
  end.

Definition added_inputs (cs : list BuilderCall) : list InOutDeviceDesc :=
  omap added_input cs.

Definition added_argument_inputs (cs : list BuilderCall) : list (string * string) :=
  omap added_argument_input cs.

(** No [AddInput] call follows an [AddArgumentInput] call. *)
Fixpoint inputs_before_argument_inputs (cs : list BuilderCall) : bool :=
  match cs with
  | [] => true
  | CallAddArgumentInput _ _ :: rest =>
      match added_inputs rest with [] => true | _ :: _ => false end
  | _ :: rest => inputs_before_argument_inputs rest
  end.

(** What a run of calls appends to [inputs_], and what it appends to
    [argument_inputs_] when [n] inputs precede it. *)
Definition new_inputs (c : BuilderCall) : list InOutDeviceDesc :=
  match c with
  | CallAddInput name device _ => [mkInOutDeviceDesc name device]
  | CallAddArgumentInput _ inp_name => [mkInOutDeviceDesc inp_name "cpu"]
  | _ => []
  end.

Fixpoint recorded (n : nat) (cs : list BuilderCall) : list (string * Z) :=
  match cs with
  | [] => []
  | CallAddArgumentInput arg_name _ :: rest =>
      (arg_name, int_of_size n) :: recorded (S n) rest
  | CallAddInput _ _ _ :: rest => recorded (S n) rest
  | _ :: rest => recorded n rest
  end.

(** The map [argument_input_idxs_] knows every recorded argument input. *)
Definition argument_input_idxs_agree (spec : OpSpec) : Prop :=
  forall (k : nat) (name : string) (i : Z),
    argument_inputs_ spec !! k = Some (name, i) ->
    argument_input_idxs_ spec !! name = Some i.

(** ** Example data: an image decoder's schema and specification *)

Module Ex.

Definition schema : OpSchema :=
  mkOpSchema "ImageDecoder"
    (<["max_batch_size" := mkArgumentDecl t_int32 (Some (mkValueInst t_int64 (VInt 8))) false]>
     (<["device" := mkArgumentDecl t_string (Some (mkValueInst t_string (VString "cpu"))) false]>
     (<["hybrid_huffman_threshold" :=
          mkArgumentDecl t_uint32 (Some (mkValueInst t_int64 (VInt 1000000))) false]>
     (<["output_type" := mkArgumentDecl t_int32 None true]>
     (<["crop_pos_x" := mkArgumentDecl t_float (Some (mkValueInst t_float (VFloat 1056964608))) false]>
      ∅)))))
    (<["huffman_threshold" := renamed_to "hybrid_huffman_threshold"]>
     (<["split_stages" := removed]> ∅)).

Definition registry : SchemaRegistry := <["ImageDecoder" := schema]> ∅.

(** The decoding operator of the decoder test, with a per-sample crop
    position. *)
Definition calls : list BuilderCall :=
  [ CallAddArg t_string "device" (VString "mixed");
    CallAddArg t_uint32 "hybrid_huffman_threshold" (VInt UINT_MAX);
    CallAddInput "encoded" "cpu" true;
    CallAddArgumentInput "crop_pos_x" "crop_x_data";
    CallAddOutput "decoded" "gpu" ].

Definition spec : OpSpec :=
  mkOpSpec "ImageDecoder" (Some schema)
    [ mkArgument "device" t_string (VString "mixed");
      mkArgument "hybrid_huffman_threshold" t_int64 (VInt UINT_MAX) ]
    (<["hybrid_huffman_threshold" := 1]> (<["device" := 0]> ∅))
    [ ("crop_pos_x", 1) ]
    (<["crop_pos_x" := 1]> ∅)
    ∅
    (<[("decoded", "gpu") := 0]> ∅)
    [ mkInOutDeviceDesc "encoded" "cpu"; mkInOutDeviceDesc "crop_x_data" "cpu" ]
    [ mkInOutDeviceDesc "decoded" "gpu" ].

(** The same literal on a specification without schema. *)
Definition spec_no_schema : OpSpec :=
  mkOpSpec EmptyString None
    [ mkArgument "device" t_string (VString "mixed") ]
    (<["device" := 0]> ∅) [] ∅ ∅ ∅ [] [].

(** A specification whose literal [device] was set as an integer. *)
Definition spec_mistyped : OpSpec :=
  mkOpSpec "ImageDecoder" (Some schema)
    [ mkArgument "device" t_int64 (VInt 3) ]
    (<["device" := 0]> ∅) [] ∅ ∅ ∅ [] [].

(** The threshold set through its deprecated name on a fresh
    specification. *)
Definition spec_alias : OpSpec :=
  mkOpSpec "ImageDecoder" (Some schema)
    [ mkArgument "hybrid_huffman_threshold" t_int64 (VInt 0) ]
    (<["hybrid_huffman_threshold" := 0]> ∅) [] ∅
    (<["hybrid_huffman_threshold" := "huffman_threshold"]> ∅) ∅ [] [].

(** A specification with a repeated literal, as
    [SetArg<int>(name, std::vector<int>)] stores it. *)
Definition spec_repeated : OpSpec :=
  mkOpSpec "ImageDecoder" (Some schema)
    [ mkArgument "crop" (t_vector t_int64) (VVector [VInt 224; VInt (-1)]) ]
    (<["crop" := 0]> ∅) [] ∅ ∅ ∅ [] [].

(** Workspaces binding the crop position of a batch of two samples. *)
Definition batch (shape : TensorListShape) (data : list (list Value)) : ArgumentWorkspace :=
  <["crop_pos_x" := mkTensorList t_float shape data]> ∅.

Definition half : Value := VFloat 1056964608.
Definition quarter : Value := VFloat 1048576000.

Definition ws_one_element : ArgumentWorkspace :=
  batch [[1]; [1]] [[half]; [quarter]].
Definition ws_empty_shape : ArgumentWorkspace :=
  batch [[]; []] [[half]; [quarter]].
Definition ws_pairs : ArgumentWorkspace :=
  batch [[2]; [2]] [[half; half]; [quarter; quarter]].
Definition ws_non_uniform : ArgumentWorkspace :=
  batch [[1]; [2]] [[half]; [quarter; quarter]].

(** A file system with one image and the current directory, which can be
    opened and has a size though a stream on it delivers nothing; decoder
    configurations with and without the hardware decoder. *)
Definition os : StdFile.libc :=
  StdFile.mkLibc
    (<["img.jpg" := [255; 216; 255; 224]]> (<["." := []]> ∅))
    (fun _ => StdFile.ENOENT)
    (<["img.jpg" := 4]> (<["." := 4096]> ∅))
    (fun _ => StdFile.ENOENT)
    (fun _ => Some (2 ^ 44 - 4096))
    (fun _ _ => StdFile.EINVAL)
    (fun errno => if bool_decide (errno = StdFile.ENOENT)
                  then "No such file or directory"
                  else if bool_decide (errno = StdFile.EINVAL)
                  then "Invalid argument" else "Unknown error").

Definition hw_config (threshold : Z) : Decode.DispatchConfig :=
  Decode.mkDispatchConfig true threshold 240000 240000.
Definition no_hw_config (threshold : Z) : Decode.DispatchConfig :=
  Decode.mkDispatchConfig false threshold 240000 240000.
Definition jpeg_400x600 : Decode.DecodeTask :=
  Decode.mkDecodeTask Decode.JPEG 400 600.
(** A hardware tier that takes every sample offered to it. *)
Definition accepts_all (_ : Decode.DispatchConfig) (_ : Decode.DecodeTask) : bool := true.

End Ex.

(* ===================================================================== *)
(** * Part II: properties                                                 *)
(* ===================================================================== *)

(** ** Auxiliary facts *)

Lemma mbind_Ok {A B} (f : A -> Result B) (a : A) : Ok a ≫= f = f a.
Proof. reflexivity. Qed.

Lemma mbind_Throw {A B} (f : A -> Result B) (e : DALIException) :
  Throw e ≫= f = Throw e.
Proof. reflexivity. Qed.

Lemma DALI_ENFORCE_true k msg : DALI_ENFORCE true k msg = Ok tt.
Proof. reflexivity. Qed.

Lemma DALI_ENFORCE_false k msg :
  DALI_ENFORCE false k msg = Throw (mkException k msg).
Proof. reflexivity. Qed.

Lemma vector_at_lookup {A} (v : list A) (i : Z) (x : A) :
  0 <= i -> v !! Z.to_nat i = Some x -> vector_at v i = Ok x.
Proof.
  intros Hi Hx. unfold vector_at.
  rewrite bool_decide_eq_true_2 by assumption. now rewrite Hx.
Qed.

(** The loop of [CheckScalarArgumentShape] computes a conjunction over the
    samples. *)
Lemma scalar_shape_loop_forallb (samples : list TensorShape) (b : bool) :
  scalar_shape_loop samples b = b && forallb scalar_sample samples.
Proof.
  revert b. induction samples as [|sh rest IH]; intros b; simpl.
  - now rewrite andb_true_r.
  - destruct b; simpl; [|reflexivity]. rewrite IH. reflexivity.
Qed.

Lemma scalar_sample_spec (sh : TensorShape) :
  scalar_sample sh = true <-> volume sh = 1 \/ sh = [].
Proof.
  unfold scalar_sample. rewrite orb_true_iff, Z.eqb_eq.
  destruct sh; simpl; intuition congruence.
Qed.

Lemma scalar_shape_loop_true (shape : TensorListShape) :
  scalar_shape_loop shape true = true <->
  Forall (fun sh => volume sh = 1 \/ sh = []) shape.
Proof.
  rewrite scalar_shape_loop_forallb. simpl.
  rewrite forallb_forall, Forall_forall.
  split; intros H sh Hin.
  - apply scalar_sample_spec, H. now apply list_elem_of_In.
  - apply scalar_sample_spec, H. now apply list_elem_of_In.
Qed.

(** A call without workspace does not reach the inner [GetArgument<int>],
    and ignores the sample index. *)
Lemma GetArgumentImpl_body_no_workspace f g T S spec name idx idx' :
  GetArgumentImpl_body f T S spec name None idx =
  GetArgumentImpl_body g T S spec name None idx'.
Proof. unfold GetArgumentImpl_body. reflexivity. Qed.

Lemma GetArgument_no_workspace_eq T spec name idx :
  GetArgument T spec name None idx = GetArgument_no_workspace T spec name.
Proof.
  unfold GetArgument, GetArgumentImpl, GetArgument_no_workspace.
  apply GetArgumentImpl_body_no_workspace.
Qed.

(** The unfolding of [GetArgument] that mirrors the source text: the
    inner member call is [GetArgument<int>] itself. *)
Lemma GetArgumentImpl_unfold T S spec name ws idx :
  GetArgumentImpl T S spec name ws idx =
  GetArgumentImpl_body (fun n => GetArgument t_int32 spec n None 0) T S spec name ws idx.
Proof.
  unfold GetArgumentImpl, GetArgumentImpl_body.
  destruct (HasTensorArgument spec name); [|reflexivity].
  destruct ws as [w|]; [|reflexivity].
  now rewrite GetArgument_no_workspace_eq.
Qed.

Lemma GetArgument_unfold T spec name ws idx :
  GetArgument T spec name ws idx =
  GetArgumentImpl_body (fun n => GetArgument t_int32 spec n None 0)
    T (argument_storage_t T) spec name ws idx.
Proof. unfold GetArgument at 1. apply GetArgumentImpl_unfold. Qed.

Example Ex_spec_built :
  run_calls Ex.calls (OpSpec_new Ex.registry "ImageDecoder") = Ok Ex.spec.
Proof. vm_compute. reflexivity. Qed.

Lemma valid_index_in_range (idx n : Z) :
  0 <= idx < n ->
  DALI_ENFORCE_VALID_INDEX idx n = Ok tt.
Proof.
  intros [Hlo Hhi]. unfold DALI_ENFORCE_VALID_INDEX.
  now rewrite !bool_decide_eq_true_2 by assumption.
Qed.

Lemma valid_index_out_of_range (idx n : Z) :
  ~ (0 <= idx < n) ->
  exists e, DALI_ENFORCE_VALID_INDEX idx n = Throw e /\ kind e = InvalidIndex.
Proof.
  intros Hout. unfold DALI_ENFORCE_VALID_INDEX.
  destruct (bool_decide (0 <= idx)) eqn:Hlo; destruct (bool_decide (idx < n)) eqn:Hhi;
    simpl; eauto.
  apply bool_decide_eq_true_1 in Hlo. apply bool_decide_eq_true_1 in Hhi. lia.
Qed.

(** ** Tensor arguments need a workspace *)

(** C4. For a name registered as a tensor argument, [GetArgument<T>] with
    a null workspace fails with [MissingContext]; whatever literal of
    that name the specification holds and whatever default the schema
    declares play no part. *)
Theorem GetArgument_null_workspace_MissingContext
    (T : CType) (spec : OpSpec) (name : string) (idx : Z) :
  HasTensorArgument spec name = true ->
  GetArgument T spec name None idx =
    Throw (mkException MissingContext (missing_workspace_message name)).
Proof.
  intros Htensor.
  unfold GetArgument, GetArgumentImpl, GetArgumentImpl_body.
  rewrite Htensor. reflexivity.
Qed.

Lemma GetArgument_null_workspace_MissingContext_witness :
  HasTensorArgument Ex.spec "crop_pos_x" = true /\
  GetArgument t_float Ex.spec "crop_pos_x" None 0 =
    Throw (mkException MissingContext (missing_workspace_message "crop_pos_x")).
Proof.
  split.
  - vm_compute. reflexivity.
  - apply (GetArgument_null_workspace_MissingContext t_float Ex.spec "crop_pos_x" 0).
    vm_compute. reflexivity.
Defined.

(** ** The three tiers of [GetArgument] *)

Lemma CheckScalarArgumentShape_scalar shape batch_size name should_throw :
  is_uniform shape = true ->
  Forall (fun sh => volume sh = 1 \/ sh = []) shape ->
  CheckScalarArgumentShape shape batch_size name should_throw = Ok true.
Proof.
  intros Hu Hs. apply scalar_shape_loop_true in Hs.
  unfold CheckScalarArgumentShape. rewrite Hu, Hs. simpl.
  destruct should_throw; reflexivity.
Qed.

Lemma tensor_first_lookup value idx x rest :
  0 <= idx -> tl_data value !! Z.to_nat idx = Some (x :: rest) ->
  tensor_first value idx = Ok x.
Proof.
  intros Hi Hx. unfold tensor_first.
  rewrite bool_decide_eq_true_2 by assumption. now rewrite Hx.
Qed.

(** C1. [GetArgument<T>(name, ws, idx)] resolves in three tiers, in this
    order.  (1) A name registered as an argument input is read from the
    workspace: without workspace the call fails, and with a scalar-shaped
    batch of element type [T] it returns the first element of sample
    [idx]; no literal and no schema default is looked at.  (2) Otherwise,
    a literal set under the name is returned, read at the storage type
    and converted to [T].  (3) Otherwise the schema's declared default is
    returned; the call fails with [UnknownArgument] when the schema
    declares no such argument and with [NoDefault] when it declares the
    argument without a default. *)
Theorem GetArgument_three_tiers
    (T : CType) (spec : OpSpec) (name : string)
    (ws : option ArgumentWorkspace) (idx : Z) :
  (HasTensorArgument spec name = true ->
     (ws = None ->
        failure_kind (GetArgument T spec name ws idx) = Some MissingContext) /\
     (forall w value b x rest,
        ws = Some w -> w !! name = Some value ->
        GetArgument t_int32 spec "max_batch_size" None 0 = Ok b ->
        is_uniform (tl_shape value) = true ->
        Forall (fun sh => volume sh = 1 \/ sh = []) (tl_shape value) ->
        tl_type value = T ->
        0 <= idx -> tl_data value !! Z.to_nat idx = Some (x :: rest) ->
        GetArgument T spec name ws idx = Ok (static_cast T x)))
  /\
  (HasTensorArgument spec name = false ->
     forall i arg,
       argument_idxs_ spec !! name = Some i ->
       0 <= i -> arguments_ spec !! Z.to_nat i = Some arg ->
       GetArgument T spec name ws idx =
         static_cast T <$> Argument_Get (argument_storage_t T) arg)
  /\
  (HasTensorArgument spec name = false ->
   argument_idxs_ spec !! name = None ->
     forall schema, schema_ spec = Some schema ->
       GetArgument T spec name ws idx =
         static_cast T <$>
           OpSchema_GetDefaultValueForArgument (argument_storage_t T) schema name /\
       (schema_arguments schema !! name = None ->
          failure_kind (GetArgument T spec name ws idx) = Some UnknownArgument) /\
       (forall decl,
          schema_arguments schema !! name = Some decl -> decl_default decl = None ->
          failure_kind (GetArgument T spec name ws idx) = Some NoDefault) /\
       (forall decl inst,
          schema_arguments schema !! name = Some decl ->
          decl_default decl = Some inst ->
          value_type inst = argument_storage_t T ->
          GetArgument T spec name ws idx = Ok (static_cast T (value_get inst)))).
Proof.
  rewrite (GetArgument_unfold T spec name ws idx).
  unfold GetArgumentImpl_body.
  split; [|split].
  - intros Htensor. rewrite Htensor. split.
    + intros ->. reflexivity.
    + intros w value b x rest -> Hvalue Hb Hu Hs Hty Hidx Hx.
      unfold ArgumentInput. rewrite Hvalue, mbind_Ok.
      rewrite Hb, mbind_Ok.
      rewrite (CheckScalarArgumentShape_scalar _ _ _ _ Hu Hs), mbind_Ok.
      unfold IsType. rewrite bool_decide_eq_true_2 by assumption.
      rewrite DALI_ENFORCE_true, mbind_Ok.
      rewrite (tensor_first_lookup _ _ _ _ Hidx Hx). reflexivity.
  - intros Htensor i arg Hi Hpos Harg. rewrite Htensor, Hi.
    rewrite (vector_at_lookup _ _ _ Hpos Harg), mbind_Ok.
    destruct (Argument_Get (argument_storage_t T) arg); reflexivity.
  - intros Htensor Hnone schema Hschema. rewrite Htensor, Hnone.
    unfold GetSchema. rewrite Hschema, mbind_Ok.
    split; [|split; [|split]].
    + destruct (OpSchema_GetDefaultValueForArgument _ schema name); reflexivity.
    + intros Hundeclared. unfold OpSchema_GetDefaultValueForArgument.
      rewrite Hundeclared. reflexivity.
    + intros decl Hdecl Hnodefault. unfold OpSchema_GetDefaultValueForArgument.
      rewrite Hdecl, Hnodefault. reflexivity.
    + intros decl inst Hdecl Hdefault Hty. unfold OpSchema_GetDefaultValueForArgument.
      rewrite Hdecl, Hdefault. rewrite bool_decide_eq_true_2 by assumption.
      reflexivity.
Qed.

Lemma GetArgument_three_tiers_witness :
  GetArgument t_float Ex.spec "crop_pos_x" (Some Ex.ws_one_element) 1 = Ok Ex.quarter /\
  GetArgument t_uint32 Ex.spec "hybrid_huffman_threshold" None 0 = Ok (VInt UINT_MAX) /\
  GetArgument t_int32 Ex.spec "max_batch_size" None 0 = Ok (VInt 8) /\
  failure_kind (GetArgument t_int32 Ex.spec "output_type" None 0) = Some NoDefault /\
  failure_kind (GetArgument t_int32 Ex.spec "no_such_argument" None 0) = Some UnknownArgument.
Proof.
  split; [|split; [|split; [|split]]].
  - destruct (GetArgument_three_tiers t_float Ex.spec "crop_pos_x"
                (Some Ex.ws_one_element) 1) as [Htier1 _].
    destruct (Htier1 ltac:(vm_compute; reflexivity)) as [_ Hread].
    apply (Hread Ex.ws_one_element
             (mkTensorList t_float [[1]; [1]] [[Ex.half]; [Ex.quarter]])
             (VInt 8) Ex.quarter []).
    + reflexivity.
    + vm_compute; reflexivity.
    + vm_compute; reflexivity.
    + vm_compute; reflexivity.
    + repeat constructor.
    + reflexivity.
    + lia.
    + reflexivity.
  - destruct (GetArgument_three_tiers t_uint32 Ex.spec "hybrid_huffman_threshold"
                None 0) as (_ & Htier2 & _).
    rewrite (Htier2 ltac:(vm_compute; reflexivity) 1
               (mkArgument "hybrid_huffman_threshold" t_int64 (VInt UINT_MAX))
               ltac:(vm_compute; reflexivity) ltac:(lia) ltac:(reflexivity)).
    vm_compute; reflexivity.
  - destruct (GetArgument_three_tiers t_int32 Ex.spec "max_batch_size"
                None 0) as (_ & _ & Htier3).
    destruct (Htier3 ltac:(vm_compute; reflexivity) ltac:(vm_compute; reflexivity)
                Ex.schema ltac:(reflexivity)) as (_ & _ & _ & Hdefault).
    apply (Hdefault (mkArgumentDecl t_int32 (Some (mkValueInst t_int64 (VInt 8))) false)
             (mkValueInst t_int64 (VInt 8))).
    + vm_compute; reflexivity.
    + reflexivity.
    + reflexivity.
  - destruct (GetArgument_three_tiers t_int32 Ex.spec "output_type"
                None 0) as (_ & _ & Htier3).
    destruct (Htier3 ltac:(vm_compute; reflexivity) ltac:(vm_compute; reflexivity)
                Ex.schema ltac:(reflexivity)) as (_ & _ & Hnodefault & _).
    apply (Hnodefault (mkArgumentDecl t_int32 None true)).
    + vm_compute; reflexivity.
    + reflexivity.
  - destruct (GetArgument_three_tiers t_int32 Ex.spec "no_such_argument"
                None 0) as (_ & _ & Htier3).
    destruct (Htier3 ltac:(vm_compute; reflexivity) ltac:(vm_compute; reflexivity)
                Ex.schema ltac:(reflexivity)) as (_ & Hunknown & _).
    apply Hunknown. vm_compute; reflexivity.
Defined.

(** ** Literal arguments do not depend on the workspace *)

(** Storing a value of type [T] at the storage type of [T] and reading it
    back at [T] gives the value. *)
Lemma static_cast_round_trip (T : CType) (val : Value) :
  has_type T val ->
  static_cast T (static_cast (argument_storage_t T) val) = val.
Proof.
  destruct val as [b|z|bits|s|l]; simpl.
  - intros ->. reflexivity.
  - unfold in_range, static_cast, argument_storage_t.
    destruct T; simpl; try contradiction; intros Hz; f_equal;
      unfold wrap_signed, wrap_unsigned;
      repeat match goal with
             | |- context [2 ^ ?n] =>
                 let v := eval vm_compute in (2 ^ n) in change (2 ^ n) with v
             | H : context [2 ^ ?n] |- _ =>
                 let v := eval vm_compute in (2 ^ n) in change (2 ^ n) with v in H
             end;
      Z.div_mod_to_equations; lia.
  - intros [-> _]. reflexivity.
  - intros ->. reflexivity.
  - destruct T; try contradiction. reflexivity.
Qed.

(** C5. A literal set under a name that is not a tensor argument is what
    [GetArgument<T>] returns: the value [val] of type [T] that [SetArg<T>]
    stored comes back under every workspace, null included, and for every
    literal the result is the same for any two workspaces. *)
Theorem GetArgument_literal_any_workspace
    (T : CType) (spec : OpSpec) (name : string) (i : Z) (arg : Argument) :
  HasTensorArgument spec name = false ->
  argument_idxs_ spec !! name = Some i ->
  0 <= i -> arguments_ spec !! Z.to_nat i = Some arg ->
  (forall ws1 ws2 idx1 idx2,
     GetArgument T spec name ws1 idx1 = GetArgument T spec name ws2 idx2) /\
  (forall val,
     has_type T val ->
     arg = Argument_Store (argument_storage_t T) name
             (static_cast (argument_storage_t T) val) ->
     forall ws idx, GetArgument T spec name ws idx = Ok val).
Proof.
  intros Htensor Hi Hpos Harg.
  assert (Hget : forall ws idx,
             GetArgument T spec name ws idx =
             static_cast T <$> Argument_Get (argument_storage_t T) arg).
  { intros ws idx. rewrite (GetArgument_unfold T spec name ws idx).
    unfold GetArgumentImpl_body. rewrite Htensor, Hi.
    rewrite (vector_at_lookup _ _ _ Hpos Harg), mbind_Ok.
    destruct (Argument_Get (argument_storage_t T) arg); reflexivity. }
  split.
  - intros ws1 ws2 idx1 idx2. now rewrite !Hget.
  - intros val Hval -> ws idx. rewrite Hget.
    unfold Argument_Get, Argument_IsType, Argument_Store. simpl.
    rewrite bool_decide_eq_true_2 by reflexivity. simpl.
    f_equal. now apply static_cast_round_trip.
Qed.

Lemma GetArgument_literal_any_workspace_witness :
  GetArgument t_uint32 Ex.spec "hybrid_huffman_threshold" None 0 = Ok (VInt UINT_MAX) /\
  GetArgument t_uint32 Ex.spec "hybrid_huffman_threshold" (Some Ex.ws_non_uniform) 1 =
    Ok (VInt UINT_MAX).
Proof.
  destruct (GetArgument_literal_any_workspace t_uint32 Ex.spec
              "hybrid_huffman_threshold" 1
              (mkArgument "hybrid_huffman_threshold" t_int64 (VInt UINT_MAX))
              ltac:(vm_compute; reflexivity) ltac:(vm_compute; reflexivity)
              ltac:(lia) ltac:(reflexivity)) as [_ Hval].
  assert (Hty : has_type t_uint32 (VInt UINT_MAX)) by (vm_compute; split; congruence).
  split; apply (Hval (VInt UINT_MAX) Hty); vm_compute; reflexivity.
Defined.

(** ** Shape of tensor arguments *)

Lemma append_assoc (a b c : string) : (a +:+ b) +:+ c = a +:+ (b +:+ c).
Proof.
  induction a as [|ch a IH]; [reflexivity|].
  change (String ch ((a +:+ b) +:+ c) = String ch (a +:+ b +:+ c)).
  now rewrite IH.
Qed.

Lemma unexpected_shape_message_mentions name batch_size shape :
  mentions (unexpected_shape_message name batch_size shape) name /\
  mentions (unexpected_shape_message name batch_size shape) (to_string batch_size).
Proof.
  unfold mentions, unexpected_shape_message. split.
  - exists ("Unexpected shape of argument " +:+ dq). eexists.
    rewrite append_assoc. reflexivity.
  - exists ("Unexpected shape of argument " +:+ dq +:+ name +:+ dq +:+
            ". Expected batch of "). eexists.
    rewrite !append_assoc. reflexivity.
Qed.

Lemma scalar_shape_loop_false (shape : TensorListShape) :
  Exists (fun sh => volume sh <> 1 /\ sh <> []) shape ->
  scalar_shape_loop shape true = false.
Proof.
  intros Hex. destruct (scalar_shape_loop shape true) eqn:Hloop; [|reflexivity].
  apply scalar_shape_loop_true in Hloop. exfalso.
  induction Hex as [sh rest [Hv He]|sh rest _ IH].
  - inversion Hloop as [|? ? [Hone|Hempty] _]; subst; contradiction.
  - inversion Hloop; subst. now apply IH.
Qed.

(** C2, counterexample.  A batch whose per-sample shape is empty is
    accepted: the call returns the element of the sample and raises no
    [ShapeMismatch]. *)
Lemma GetArgument_empty_sample_shape_accepted :
  HasTensorArgument Ex.spec "crop_pos_x" = true /\
  tl_shape <$> (Ex.ws_empty_shape !! "crop_pos_x") = Some [[]; []] /\
  GetArgument t_float Ex.spec "crop_pos_x" (Some Ex.ws_empty_shape) 0 = Ok Ex.half /\
  failure_kind (GetArgument t_float Ex.spec "crop_pos_x" (Some Ex.ws_empty_shape) 0)
    <> Some ShapeMismatch.
Proof. vm_compute. repeat split; congruence. Qed.

(** C2, amended.  For a tensor argument bound by the workspace to a
    uniform batch, with [max_batch_size] resolving to [b]: whenever some
    sample holds neither exactly one element nor has an empty shape,
    [GetArgument<T>] fails with [ShapeMismatch], and the message names the
    argument and the batch size; when every sample holds exactly one
    element or has an empty shape, no [ShapeMismatch] is raised. *)
Theorem GetArgument_ShapeMismatch
    (T : CType) (spec : OpSpec) (name : string)
    (w : ArgumentWorkspace) (value : TensorList) (b : Value) (idx : Z) :
  HasTensorArgument spec name = true ->
  w !! name = Some value ->
  GetArgument t_int32 spec "max_batch_size" None 0 = Ok b ->
  is_uniform (tl_shape value) = true ->
  (Exists (fun sh => volume sh <> 1 /\ sh <> []) (tl_shape value) ->
     exists e,
       GetArgument T spec name (Some w) idx = Throw e /\
       kind e = ShapeMismatch /\
       what e = unexpected_shape_message name (int_value b) (tl_shape value) /\
       mentions (what e) name /\
       mentions (what e) (to_string (int_value b)))
  /\
  (Forall (fun sh => volume sh = 1 \/ sh = []) (tl_shape value) ->
     failure_kind (GetArgument T spec name (Some w) idx) <> Some ShapeMismatch).
Proof.
  intros Htensor Hvalue Hb Hu.
  rewrite (GetArgument_unfold T spec name (Some w) idx).
  unfold GetArgumentImpl_body. rewrite Htensor.
  unfold ArgumentInput. rewrite Hvalue, mbind_Ok, Hb, mbind_Ok.
  split.
  - intros Hex. apply scalar_shape_loop_false in Hex.
    unfold CheckScalarArgumentShape. rewrite Hu, DALI_ENFORCE_true, mbind_Ok, Hex.
    eexists. split; [reflexivity|]. simpl.
    split; [reflexivity|]. split; [reflexivity|].
    apply unexpected_shape_message_mentions.
  - intros Hall.
    rewrite (CheckScalarArgumentShape_scalar _ _ _ _ Hu Hall), mbind_Ok.
    destruct (IsType T (tl_type value)); [|simpl; congruence].
    rewrite DALI_ENFORCE_true, mbind_Ok.
    destruct (tensor_first value idx) as [x|e] eqn:Hx; simpl; [congruence|].
    unfold tensor_first in Hx.
    destruct (bool_decide (0 <= idx)); [|inversion Hx; subst; simpl; congruence].
    destruct (tl_data value !! Z.to_nat idx) as [[|? ?]|];
      inversion Hx; subst; simpl; congruence.
Qed.

Lemma GetArgument_ShapeMismatch_witness :
  (exists e,
     GetArgument t_float Ex.spec "crop_pos_x" (Some Ex.ws_pairs) 0 = Throw e /\
     kind e = ShapeMismatch /\
     what e = unexpected_shape_message "crop_pos_x" 8 [[2]; [2]] /\
     mentions (what e) "crop_pos_x" /\
     mentions (what e) "8") /\
  failure_kind (GetArgument t_float Ex.spec "crop_pos_x" (Some Ex.ws_one_element) 0)
    <> Some ShapeMismatch.
Proof.
  split.
  - apply (GetArgument_ShapeMismatch t_float Ex.spec "crop_pos_x" Ex.ws_pairs
             (mkTensorList t_float [[2]; [2]]
                [[Ex.half; Ex.half]; [Ex.quarter; Ex.quarter]])
             (VInt 8) 0);
      [vm_compute; reflexivity .. |].
    apply Exists_cons_hd. split; [vm_compute; congruence | congruence].
  - apply (GetArgument_ShapeMismatch t_float Ex.spec "crop_pos_x" Ex.ws_one_element
             (mkTensorList t_float [[1]; [1]] [[Ex.half]; [Ex.quarter]])
             (VInt 8) 0);
      [vm_compute; reflexivity .. |].
    repeat constructor.
Defined.

(** ** [TryGetArgument] *)

Lemma static_cast_has_type (T : CType) (x : Value) :
  has_type T x -> static_cast T x = x.
Proof.
  destruct x as [b|z|bits|s|l]; simpl.
  - intros ->. reflexivity.
  - unfold in_range, static_cast.
    destruct T; simpl; try contradiction; intros Hz; f_equal;
      unfold wrap_signed, wrap_unsigned;
      repeat match goal with
             | |- context [2 ^ ?n] =>
                 let v := eval vm_compute in (2 ^ n) in change (2 ^ n) with v
             | H : context [2 ^ ?n] |- _ =>
                 let v := eval vm_compute in (2 ^ n) in change (2 ^ n) with v in H
             end;
      Z.div_mod_to_equations; lia.
  - intros [-> _]. reflexivity.
  - intros ->. reflexivity.
  - destruct T; try contradiction. reflexivity.
Qed.

(** In a well-formed batch whose samples are scalar-shaped, every sample in
    range has exactly one element, of the declared type. *)
Lemma tensor_first_scalar (value : TensorList) (idx : Z) :
  TensorList_wf value ->
  scalar_shape_loop (tl_shape value) true = true ->
  0 <= idx < Z.of_nat (length (tl_data value)) ->
  exists x, tensor_first value idx = Ok x /\ has_type (tl_type value) x.
Proof.
  intros Hwf Hscalar [Hlo Hhi].
  apply scalar_shape_loop_true in Hscalar.
  destruct (lookup_lt_is_Some_2 (tl_data value) (Z.to_nat idx)) as [sample Hsample];
    [lia|].
  destruct (Forall2_lookup_r _ _ _ _ _ Hwf Hsample) as (sh & Hsh & Hlen & Hty).
  assert (Hvol : volume sh = 1).
  { rewrite Forall_lookup in Hscalar.
    destruct (Hscalar _ _ Hsh) as [Hv| ->]; [exact Hv|reflexivity]. }
  destruct sample as [|x rest]; [simpl in Hlen; lia|].
  exists x. split.
  - now apply (tensor_first_lookup value idx x rest).
  - now inversion Hty.
Qed.

(** C3, counterexample.  On a batch that is not uniform [TryGetArgument]
    raises: the uniformity guard of [CheckScalarArgumentShape] does not
    depend on [should_throw]. *)
Lemma TryGetArgument_non_uniform_raises :
  HasTensorArgument Ex.spec "crop_pos_x" = true /\
  TryGetArgument t_float Ex.spec "crop_pos_x" (Some Ex.ws_non_uniform) 0 =
    Throw (mkException NonUniformArgument (non_uniform_message "crop_pos_x")).
Proof. vm_compute. split; reflexivity. Qed.

(** C3, amended.  [TryGetArgument<T>] follows the three tiers of
    [GetArgument<T>] and signals instead of raising: it returns [true]
    with the value exactly when [GetArgument<T>] returns that value, and
    [false] where [GetArgument<T>] raises.  This holds (tier 1) when the
    workspace is null, or binds the name to a well-formed uniform batch
    that has sample [idx] while [max_batch_size] resolves, and (tiers 2
    and 3) when the specification has a schema; in tier 3 the schema
    default is read through the lookups that do not raise. *)
Theorem TryGetArgument_signals_instead_of_raising
    (T : CType) (spec : OpSpec) (name : string)
    (ws : option ArgumentWorkspace) (idx : Z) :
  (HasTensorArgument spec name = true ->
     forall w, ws = Some w ->
       exists value b,
         w !! name = Some value /\
         GetArgument t_int32 spec "max_batch_size" None 0 = Ok b /\
         is_uniform (tl_shape value) = true /\
         TensorList_wf value /\
         0 <= idx < Z.of_nat (length (tl_data value))) ->
  (HasTensorArgument spec name = false ->
     is_Some (schema_ spec) /\
     forall i, argument_idxs_ spec !! name = Some i ->
       0 <= i /\ is_Some (arguments_ spec !! Z.to_nat i)) ->
  TryGetArgument T spec name ws idx =
    Ok (match GetArgument T spec name ws idx with
        | Ok v => Some v
        | Throw _ => None
        end).
Proof.
  intros Htier1 Hlocal.
  rewrite (GetArgument_unfold T spec name ws idx).
  unfold TryGetArgument, TryGetArgumentImpl, GetArgumentImpl_body.
  destruct (HasTensorArgument spec name) eqn:Htensor.
  - destruct ws as [w|]; [|reflexivity].
    destruct (Htier1 eq_refl w eq_refl) as (value & b & Hvalue & Hb & Hu & Hwf & Hidx).
    unfold ArgumentInput. rewrite Hvalue, !mbind_Ok, Hb, !mbind_Ok.
    unfold CheckScalarArgumentShape. rewrite Hu, DALI_ENFORCE_true, !mbind_Ok.
    destruct (scalar_shape_loop (tl_shape value) true) eqn:Hscalar;
      [|reflexivity].
    rewrite DALI_ENFORCE_true, !mbind_Ok. simpl negb.
    unfold IsType. destruct (bool_decide (tl_type value = T)) eqn:Hty;
      [|reflexivity].
    apply bool_decide_eq_true_1 in Hty.
    destruct (tensor_first_scalar value idx Hwf Hscalar Hidx) as (x & Hx & Hxty).
    rewrite DALI_ENFORCE_true, !mbind_Ok, Hx, !mbind_Ok. simpl negb. cbv iota.
    rewrite Hty in Hxty. now rewrite (static_cast_has_type T x Hxty).
  - destruct (Hlocal eq_refl) as [[schema Hschema] Hidxs].
    unfold GetSchema. rewrite Hschema, !mbind_Ok.
    destruct (argument_idxs_ spec !! name) as [i|] eqn:Hi.
    + destruct (Hidxs i eq_refl) as [Hpos [arg Harg]].
      rewrite (vector_at_lookup _ _ _ Hpos Harg), !mbind_Ok.
      unfold Argument_Get.
      destruct (Argument_IsType (argument_storage_t T) arg); reflexivity.
    + unfold OpSchema_HasArgument, OpSchema_HasArgumentDefaultValue,
        OpSchema_FindDefaultValue, OpSchema_GetDefaultValueForArgument.
      destruct (schema_arguments schema !! name) as [decl|] eqn:Hdecl.
      * rewrite bool_decide_eq_true_2 by eauto. simpl.
        destruct (decl_default decl) as [inst|] eqn:Hdefault.
        -- rewrite bool_decide_eq_true_2 by eauto.
           destruct (bool_decide (value_type inst = argument_storage_t T)); reflexivity.
        -- rewrite bool_decide_eq_false_2 by (intros [? ?]; discriminate).
           reflexivity.
      * rewrite bool_decide_eq_false_2 by (intros [? ?]; discriminate).
        reflexivity.
Qed.

Lemma Ex_spec_literal_indices (name : string) (i : Z) :
  argument_idxs_ Ex.spec !! name = Some i ->
  0 <= i /\ is_Some (arguments_ Ex.spec !! Z.to_nat i).
Proof.
  unfold Ex.spec; simpl. intros Hi.
  destruct (decide (name = "hybrid_huffman_threshold")) as [->|Hne1].
  - rewrite lookup_insert_eq in Hi. inversion Hi; subst. split; [lia|]. simpl. eauto.
  - rewrite lookup_insert_ne in Hi by congruence.
    destruct (decide (name = "device")) as [->|Hne2].
    + rewrite lookup_insert_eq in Hi. inversion Hi; subst. split; [lia|]. simpl. eauto.
    + rewrite lookup_insert_ne in Hi by congruence.
      rewrite lookup_empty in Hi. discriminate.
Qed.

Lemma TryGetArgument_signals_instead_of_raising_witness :
  TryGetArgument t_float Ex.spec "crop_pos_x" (Some Ex.ws_one_element) 1 =
    Ok (Some Ex.quarter) /\
  TryGetArgument t_float Ex.spec "crop_pos_x" (Some Ex.ws_pairs) 1 = Ok None /\
  TryGetArgument t_float Ex.spec "crop_pos_x" None 0 = Ok None /\
  TryGetArgument t_string Ex.spec "device" None 0 = Ok (Some (VString "mixed")) /\
  TryGetArgument t_int32 Ex.spec "output_type" None 0 = Ok None.
Proof.
  assert (Hbatch : forall shape data idx,
             is_uniform shape = true ->
             TensorList_wf (mkTensorList t_float shape data) ->
             0 <= idx < Z.of_nat (length data) ->
             TryGetArgument t_float Ex.spec "crop_pos_x" (Some (Ex.batch shape data)) idx =
             Ok (match GetArgument t_float Ex.spec "crop_pos_x"
                         (Some (Ex.batch shape data)) idx with
                 | Ok v => Some v
                 | Throw _ => None
                 end)).
  { intros shape data idx Hu Hwf Hidx.
    apply (TryGetArgument_signals_instead_of_raising t_float Ex.spec "crop_pos_x"
             (Some (Ex.batch shape data)) idx).
    - intros _ w Hw. inversion Hw; subst w.
      exists (mkTensorList t_float shape data), (VInt 8).
      split; [apply lookup_insert_eq|].
      split; [vm_compute; reflexivity|].
      split; [exact Hu|]. split; [exact Hwf|exact Hidx].
    - intros Hno. vm_compute in Hno. discriminate. }
  assert (Hlocal : forall T name,
             HasTensorArgument Ex.spec name = false ->
             TryGetArgument T Ex.spec name None 0 =
             Ok (match GetArgument T Ex.spec name None 0 with
                 | Ok v => Some v
                 | Throw _ => None
                 end)).
  { intros T name Hno.
    apply (TryGetArgument_signals_instead_of_raising T Ex.spec name None 0).
    - intros Hyes. rewrite Hno in Hyes. discriminate.
    - intros _. split; [simpl; eauto|]. apply Ex_spec_literal_indices. }
  unfold Ex.ws_one_element, Ex.ws_pairs.
  split; [|split; [|split; [|split]]].
  - rewrite (Hbatch [[1]; [1]] [[Ex.half]; [Ex.quarter]] 1);
      [vm_compute; reflexivity|reflexivity| |simpl; lia].
    repeat first [lia | constructor].
  - rewrite (Hbatch [[2]; [2]] [[Ex.half; Ex.half]; [Ex.quarter; Ex.quarter]] 1);
      [vm_compute; reflexivity|reflexivity| |simpl; lia].
    repeat first [lia | constructor].
  - apply (TryGetArgument_signals_instead_of_raising t_float Ex.spec "crop_pos_x" None 0).
    + intros _ w Hw. discriminate.
    + intros Hno. vm_compute in Hno. discriminate.
  - rewrite (Hlocal t_string "device"); vm_compute; reflexivity.
  - rewrite (Hlocal t_int32 "output_type"); vm_compute; reflexivity.
Defined.

(** C10, counterexample.  On a specification without schema the literal
    [device], stored as a string, is asked for as an [int]: the call does
    not return [false], it raises, because the schema is fetched before
    the literal is looked at. *)
Lemma TryGetArgument_stored_type_differs_no_schema :
  HasTensorArgument Ex.spec_no_schema "device" = false /\
  stored_type <$> (arguments_ Ex.spec_no_schema !! 0%nat) = Some t_string /\
  argument_storage_t t_int32 <> t_string /\
  TryGetArgument t_int32 Ex.spec_no_schema "device" None 0 =
    Throw (mkException NoSchema ("No schema found for operator " +:+ dq +:+ dq)) /\
  TryGetArgument t_int32 Ex.spec_no_schema "device" None 0 <> Ok None.
Proof. vm_compute. repeat split; congruence. Qed.

(** C10, amended.  On a specification that has a schema, for a name that
    is not a tensor argument: if a literal with the requested name exists
    but its stored type differs from the requested storage type [S],
    [TryGetArgument<T>] returns [false]; a literal alone decides the
    result, whatever default the schema declares for the name. *)
Theorem TryGetArgument_stored_type_differs
    (T S : CType) (spec : OpSpec) (schema : OpSchema) (name : string)
    (i : Z) (arg : Argument) (ws : option ArgumentWorkspace) (idx : Z) :
  HasTensorArgument spec name = false ->
  schema_ spec = Some schema ->
  argument_idxs_ spec !! name = Some i ->
  0 <= i -> arguments_ spec !! Z.to_nat i = Some arg ->
  (stored_type arg <> S -> TryGetArgumentImpl T S spec name ws idx = Ok None) /\
  TryGetArgumentImpl T S spec name ws idx =
    Ok (if Argument_IsType S arg then Some (static_cast T (stored_value arg)) else None).
Proof.
  intros Htensor Hschema Hi Hpos Harg.
  assert (Hres : TryGetArgumentImpl T S spec name ws idx =
                 Ok (if Argument_IsType S arg
                     then Some (static_cast T (stored_value arg)) else None)).
  { unfold TryGetArgumentImpl. rewrite Htensor. unfold GetSchema.
    rewrite Hschema, mbind_Ok, Hi, (vector_at_lookup _ _ _ Hpos Harg), mbind_Ok.
    unfold Argument_Get. destruct (Argument_IsType S arg); reflexivity. }
  split; [|exact Hres].
  intros Hdiff. rewrite Hres. unfold Argument_IsType.
  now rewrite bool_decide_eq_false_2.
Qed.

Lemma TryGetArgument_stored_type_differs_witness :
  OpSchema_FindDefaultValue Ex.schema "device" = Some (mkValueInst t_string (VString "cpu")) /\
  TryGetArgument t_string Ex.spec_mistyped "device" None 0 = Ok None.
Proof.
  split; [vm_compute; reflexivity|].
  destruct (TryGetArgument_stored_type_differs t_string (argument_storage_t t_string)
              Ex.spec_mistyped Ex.schema "device" 0
              (mkArgument "device" t_int64 (VInt 3)) None 0
              ltac:(vm_compute; reflexivity) ltac:(reflexivity)
              ltac:(vm_compute; reflexivity) ltac:(lia) ltac:(reflexivity))
    as [Hdiffers _].
  apply Hdiffers. vm_compute; congruence.
Defined.

(** ** Conflicting double specification *)

Lemma store_argument_frame (name : string) (arg : Argument) (spec : OpSpec) :
  schema_ (store_argument name arg spec) = schema_ spec /\
  set_through_deprecated_arguments_ (store_argument name arg spec) =
    set_through_deprecated_arguments_ spec /\
  is_Some (argument_idxs_ (store_argument name arg spec) !! name).
Proof.
  unfold store_argument.
  destruct (argument_idxs_ spec !! name) as [i|] eqn:Hi; simpl.
  - rewrite Hi. eauto.
  - rewrite lookup_insert_eq. eauto.
Qed.

(** What a successful [SetInitializedArg] leaves behind: the argument is
    stored under the resolved name, and a renamed alias is on record. *)
Lemma SetInitializedArg_Ok (name : string) (arg : Argument) (spec spec1 : OpSpec)
    (target : string) :
  SetInitializedArg name arg spec = Ok spec1 ->
  resolve_alias spec name = Some target ->
  schema_ spec1 = schema_ spec /\
  is_Some (argument_idxs_ spec1 !! target) /\
  (target <> name -> set_through_deprecated_arguments_ spec1 !! target = Some name).
Proof.
  unfold SetInitializedArg, resolve_alias.
  destruct (schema_ spec ≫= _) as [[new|]|] eqn:Hdep; intros Hset Hres;
    [|discriminate|].
  - injection Hres as <-.
    destruct (bool_decide (is_Some (argument_idxs_ spec !! new))); [discriminate|].
    simpl in Hset. injection Hset as <-.
    destruct (store_argument_frame new
                (mkArgument new (stored_type arg) (stored_value arg))
                (record_set_through new name spec)) as (Hs & Ht & Hi).
    split; [exact Hs|]. split; [exact Hi|].
    intros _. rewrite Ht. simpl. apply lookup_insert_eq.
  - injection Hres as <-.
    destruct (EnforceNoAliasWithDeprecated spec name); [|discriminate].
    simpl in Hset. injection Hset as <-.
    destruct (store_argument_frame name arg spec) as (Hs & _ & Hi).
    split; [exact Hs|]. split; [exact Hi|]. congruence.
Qed.

Lemma AddArg_Ok_SetArg T name val spec spec1 :
  AddArg T name val spec = Ok spec1 -> SetArg T name val spec = Ok spec1.
Proof.
  unfold AddArg.
  destruct (EnforceNoAliasWithDeprecated spec name); [|discriminate].
  destruct (bool_decide (is_Some (argument_idxs_ spec !! name))); [discriminate|].
  simpl. trivial.
Qed.

(** A name whose target is already set cannot be added. *)
Lemma AddArg_target_present T name val spec target :
  resolve_alias spec name = Some target ->
  is_Some (argument_idxs_ spec !! target) ->
  failure_kind (AddArg T name val spec) = Some ConflictingSpecification.
Proof.
  intros Hres Htarget. unfold AddArg, EnforceNoAliasWithDeprecated.
  destruct (set_through_deprecated_arguments_ spec !! name); [reflexivity|].
  rewrite mbind_Ok.
  destruct (bool_decide (is_Some (argument_idxs_ spec !! name))) eqn:Hname;
    [reflexivity|].
  simpl negb. rewrite DALI_ENFORCE_true, mbind_Ok.
  unfold SetArg, SetInitializedArg. unfold resolve_alias in Hres.
  destruct (schema_ spec ≫= _) as [[new|]|]; [|discriminate|].
  - injection Hres as ->.
    rewrite bool_decide_eq_true_2 by assumption. reflexivity.
  - injection Hres as ->.
    apply bool_decide_eq_false_1 in Hname. contradiction.
Qed.

(** C6. Once an argument was set, adding an argument that resolves to the
    same name fails with [ConflictingSpecification] at that call: a second
    [AddArg] with the same name, the deprecated alias of a name already
    set, the new name of an alias already set, or a second alias of the
    same name.  [SetArg] under another name that resolves to it is
    rejected in the same way. *)
Theorem conflicting_specification_rejected
    (T1 : CType) (n1 : string) (v1 : Value) (spec spec1 : OpSpec) (target : string) :
  AddArg T1 n1 v1 spec = Ok spec1 \/ SetArg T1 n1 v1 spec = Ok spec1 ->
  resolve_alias spec n1 = Some target ->
  forall (T2 : CType) (n2 : string) (v2 : Value),
    resolve_alias spec1 n2 = Some target ->
    failure_kind (AddArg T2 n2 v2 spec1) = Some ConflictingSpecification /\
    (n2 <> n1 ->
     failure_kind (SetArg T2 n2 v2 spec1) = Some ConflictingSpecification).
Proof.
  intros Hfirst Hres1 T2 n2 v2 Hres2.
  assert (Hset : SetArg T1 n1 v1 spec = Ok spec1)
    by (destruct Hfirst as [Hadd|Hset]; [now apply AddArg_Ok_SetArg|exact Hset]).
  destruct (SetInitializedArg_Ok _ _ _ _ _ Hset Hres1) as (Hschema & Htarget & Hthrough).
  split.
  - now apply (AddArg_target_present T2 n2 v2 spec1 target).
  - intros Hne. unfold SetArg, SetInitializedArg. unfold resolve_alias in Hres2.
    destruct (schema_ spec1 ≫= _) as [[new|]|]; [|discriminate|].
    + injection Hres2 as ->.
      rewrite bool_decide_eq_true_2 by assumption. reflexivity.
    + injection Hres2 as ->.
      unfold EnforceNoAliasWithDeprecated.
      rewrite (Hthrough ltac:(congruence)). reflexivity.
Qed.

Lemma conflicting_specification_rejected_witness :
  AddArg t_uint32 "huffman_threshold" (VInt 0) (OpSpec_new Ex.registry "ImageDecoder") =
    Ok Ex.spec_alias /\
  (* the new name after its alias *)
  failure_kind (AddArg t_uint32 "hybrid_huffman_threshold" (VInt 5) Ex.spec_alias) =
    Some ConflictingSpecification /\
  failure_kind (SetArg t_uint32 "hybrid_huffman_threshold" (VInt 5) Ex.spec_alias) =
    Some ConflictingSpecification /\
  (* the alias a second time *)
  failure_kind (AddArg t_uint32 "huffman_threshold" (VInt 5) Ex.spec_alias) =
    Some ConflictingSpecification.
Proof.
  assert (Hfirst : AddArg t_uint32 "huffman_threshold" (VInt 0)
                     (OpSpec_new Ex.registry "ImageDecoder") = Ok Ex.spec_alias)
    by (vm_compute; reflexivity).
  pose proof (conflicting_specification_rejected t_uint32 "huffman_threshold" (VInt 0)
                (OpSpec_new Ex.registry "ImageDecoder") Ex.spec_alias
                "hybrid_huffman_threshold" (or_introl Hfirst)
                ltac:(vm_compute; reflexivity)) as Hsecond.
  split; [exact Hfirst|].
  destruct (Hsecond t_uint32 "hybrid_huffman_threshold" (VInt 5)
              ltac:(vm_compute; reflexivity)) as [Hadd Hset].
  split; [exact Hadd|]. split; [apply Hset; congruence|].
  destruct (Hsecond t_uint32 "huffman_threshold" (VInt 5)
              ltac:(vm_compute; reflexivity)) as [Hagain _].
  exact Hagain.
Defined.

(** ** Argument inputs occupy the tail of the inputs *)

Lemma to_int_small (z : Z) : - 2 ^ 31 <= z < 2 ^ 31 -> to_int z = z.
Proof.
  unfold to_int, wrap_signed. change (32 - 1) with 31.
  change (2 ^ 32) with 4294967296. change (2 ^ 31) with 2147483648.
  intros Hz. Z.div_mod_to_equations. lia.
Qed.

Lemma int_of_size_small (n : nat) : Z.of_nat n <= INT_MAX -> int_of_size n = Z.of_nat n.
Proof.
  unfold INT_MAX, int_of_size. intros Hn. apply to_int_small.
  change (2 ^ 31) with 2147483648 in *. lia.
Qed.

Lemma SetInitializedArg_inputs name arg spec spec' :
  SetInitializedArg name arg spec = Ok spec' ->
  inputs_ spec' = inputs_ spec /\ argument_inputs_ spec' = argument_inputs_ spec.
Proof.
  unfold SetInitializedArg.
  destruct (schema_ spec ≫= _) as [[new|]|].
  - destruct (DALI_ENFORCE _ _ _); [|discriminate]. simpl.
    intros [= <-]. unfold store_argument, record_set_through. simpl.
    destruct (argument_idxs_ spec !! new); split; reflexivity.
  - intros [= <-]. split; reflexivity.
  - destruct (EnforceNoAliasWithDeprecated spec name); [|discriminate]. simpl.
    intros [= <-]. unfold store_argument.
    destruct (argument_idxs_ spec !! name); split; reflexivity.
Qed.

(** What one builder call does to the two sequences. *)
Lemma run_call_inputs (c : BuilderCall) (spec spec' : OpSpec) :
  run_call c spec = Ok spec' ->
  inputs_ spec' = (inputs_ spec ++ new_inputs c)%list /\
  argument_inputs_ spec' =
    (argument_inputs_ spec ++ recorded (length (inputs_ spec)) [c])%list.
Proof.
  destruct c as [T name val|T name val|name device regular|arg_name inp_name|name device];
    simpl; intros Hrun; rewrite ?app_nil_r.
  - apply AddArg_Ok_SetArg in Hrun. now apply SetInitializedArg_inputs in Hrun.
  - now apply SetInitializedArg_inputs in Hrun.
  - unfold AddInput in Hrun.
    destruct (DALI_ENFORCE (valid_device device) _ _); [|discriminate].
    simpl in Hrun. injection Hrun as <-. simpl. auto.
  - unfold AddArgumentInput in Hrun.
    destruct (DALI_ENFORCE (negb (HasArgument spec arg_name)) _ _); [|discriminate].
    rewrite mbind_Ok in Hrun.
    destruct (DALI_ENFORCE (negb (HasTensorArgument spec arg_name)) _ _); [|discriminate].
    rewrite mbind_Ok in Hrun.
    destruct (GetSchema spec) as [schema|]; [|discriminate].
    rewrite mbind_Ok in Hrun.
    destruct (DALI_ENFORCE (OpSchema_HasArgument schema arg_name) _ _); [|discriminate].
    rewrite mbind_Ok in Hrun.
    unfold AddInput in Hrun. simpl in Hrun. injection Hrun as <-. simpl. auto.
  - unfold AddOutput in Hrun.
    destruct (DALI_ENFORCE (valid_device device) _ _); [|discriminate].
    rewrite mbind_Ok in Hrun.
    destruct (DALI_ENFORCE _ _ _); [|discriminate].
    simpl in Hrun. injection Hrun as <-. auto.
Qed.

Lemma recorded_cons (n : nat) (c : BuilderCall) (rest : list BuilderCall) :
  recorded n (c :: rest) =
    (recorded n [c] ++ recorded (n + length (new_inputs c)) rest)%list.
Proof.
  destruct c; simpl; rewrite ?Nat.add_0_r, ?Nat.add_1_r; reflexivity.
Qed.

(** What a run of builder calls does to the two sequences. *)
Lemma run_calls_inputs (cs : list BuilderCall) (spec spec' : OpSpec) :
  run_calls cs spec = Ok spec' ->
  inputs_ spec' = (inputs_ spec ++ flat_map new_inputs cs)%list /\
  argument_inputs_ spec' =
    (argument_inputs_ spec ++ recorded (length (inputs_ spec)) cs)%list.
Proof.
  revert spec. induction cs as [|c rest IH]; intros spec Hrun.
  - simpl in Hrun. injection Hrun as <-. simpl. now rewrite !app_nil_r.
  - simpl in Hrun.
    destruct (run_call c spec) as [spec1|] eqn:Hcall; [|discriminate].
    rewrite mbind_Ok in Hrun.
    destruct (run_call_inputs c spec spec1 Hcall) as [Hin1 Harg1].
    destruct (IH spec1 Hrun) as [Hin Harg].
    rewrite Hin, Harg, Hin1, Harg1, length_app.
    rewrite (recorded_cons (length (inputs_ spec)) c rest).
    simpl. now rewrite <- !app_assoc.
Qed.

Lemma length_recorded (n : nat) (cs : list BuilderCall) :
  length (recorded n cs) = length (added_argument_inputs cs).
Proof.
  revert n. induction cs as [|c rest IH]; intros n; [reflexivity|].
  destruct c; simpl; rewrite ?IH; reflexivity.
Qed.

Lemma length_new_inputs (cs : list BuilderCall) :
  length (flat_map new_inputs cs) =
    (length (added_inputs cs) + length (added_argument_inputs cs))%nat.
Proof.
  induction cs as [|c rest IH]; [reflexivity|].
  destruct c; simpl; rewrite ?IH; lia.
Qed.

Lemma run_calls_counted cs spec spec' :
  run_calls cs spec = Ok spec' ->
  argument_inputs_counted spec -> argument_inputs_counted spec'.
Proof.
  unfold argument_inputs_counted. intros Hrun Hinv.
  destruct (run_calls_inputs cs spec spec' Hrun) as [-> ->].
  rewrite !length_app, length_recorded, length_new_inputs. lia.
Qed.

(** The accessors on a specification whose argument inputs are counted
    among at most [INT_MAX] inputs. *)
Lemma input_accessors (spec : OpSpec) :
  argument_inputs_counted spec ->
  Z.of_nat (length (inputs_ spec)) <= INT_MAX ->
  NumInput spec = Z.of_nat (length (inputs_ spec)) /\
  NumArgumentInput spec = Z.of_nat (length (argument_inputs_ spec)) /\
  NumRegularInput spec =
    Z.of_nat (length (inputs_ spec)) - Z.of_nat (length (argument_inputs_ spec)).
Proof.
  unfold argument_inputs_counted. intros Hinv Hmax.
  assert (Hni : NumInput spec = Z.of_nat (length (inputs_ spec)))
    by now apply int_of_size_small.
  assert (Hna : NumArgumentInput spec = Z.of_nat (length (argument_inputs_ spec)))
    by (apply int_of_size_small; lia).
  split; [exact Hni|]. split; [exact Hna|].
  unfold NumRegularInput. rewrite Hni, Hna. apply to_int_small.
  unfold INT_MAX in Hmax. change (2 ^ 31) with 2147483648 in *. lia.
Qed.

(** The index recorded with an argument input is the position of the
    input added with it, in whatever order the calls come. *)
Lemma recorded_points_at_input (cs : list BuilderCall) :
  forall (n k : nat) (arg_name inp_name : string),
    Z.of_nat (n + length (flat_map new_inputs cs)) <= INT_MAX ->
    added_argument_inputs cs !! k = Some (arg_name, inp_name) ->
    exists j : nat,
      recorded n cs !! k = Some (arg_name, Z.of_nat (n + j)) /\
      flat_map new_inputs cs !! j = Some (mkInOutDeviceDesc inp_name "cpu").
Proof.
  induction cs as [|c rest IH]; intros n k arg_name inp_name Hmax Hk;
    [discriminate|].
  destruct c as [T name val|T name val|name device regular|a0 inp0|name device];
    simpl in *; try (apply (IH n k); [lia|exact Hk]).
  - destruct (IH (S n) k arg_name inp_name ltac:(lia) Hk) as (j & Hrec & Hin).
    exists (S j). split; [|exact Hin].
    rewrite Hrec. do 3 f_equal. lia.
  - destruct k as [|k]; simpl in Hk.
    + injection Hk as -> ->. exists 0%nat. split; [|reflexivity].
      simpl. rewrite int_of_size_small by lia. do 3 f_equal. lia.
    + destruct (IH (S n) k arg_name inp_name ltac:(lia) Hk) as (j & Hrec & Hin).
      exists (S j). split; [|exact Hin].
      simpl. rewrite Hrec. do 3 f_equal. lia.
Qed.

(** Once the calls add no input of their own, the [k]-th argument input
    is the [k]-th input they append. *)
Lemma recorded_without_inputs (cs : list BuilderCall) :
  forall (n k : nat) (arg_name inp_name : string),
    added_inputs cs = [] ->
    Z.of_nat (n + length (flat_map new_inputs cs)) <= INT_MAX ->
    added_argument_inputs cs !! k = Some (arg_name, inp_name) ->
    recorded n cs !! k = Some (arg_name, Z.of_nat (n + k)) /\
    flat_map new_inputs cs !! k = Some (mkInOutDeviceDesc inp_name "cpu").
Proof.
  induction cs as [|c rest IH]; intros n k arg_name inp_name Hnone Hmax Hk;
    [discriminate|].
  destruct c as [T name val|T name val|name device regular|a0 inp0|name device];
    simpl in *; try discriminate;
    try (apply (IH n k); [exact Hnone|lia|exact Hk]).
  destruct k as [|k]; simpl in Hk.
  - injection Hk as -> ->. simpl. rewrite int_of_size_small by lia.
    split; [|reflexivity]. do 3 f_equal. lia.
  - destruct (IH (S n) k arg_name inp_name Hnone ltac:(lia) Hk) as [Hrec Hin].
    simpl. split; [|exact Hin]. rewrite Hrec. do 3 f_equal. lia.
Qed.

(** With the inputs added before the argument inputs, the regular inputs
    come first and the argument inputs follow them, both in the order of
    the calls. *)
Lemma recorded_after_inputs (cs : list BuilderCall) :
  forall (n k : nat) (arg_name inp_name : string),
    inputs_before_argument_inputs cs = true ->
    Z.of_nat (n + length (flat_map new_inputs cs)) <= INT_MAX ->
    added_argument_inputs cs !! k = Some (arg_name, inp_name) ->
    recorded n cs !! k =
      Some (arg_name, Z.of_nat (n + length (added_inputs cs) + k)) /\
    flat_map new_inputs cs !! (length (added_inputs cs) + k)%nat =
      Some (mkInOutDeviceDesc inp_name "cpu").
Proof.
  induction cs as [|c rest IH]; intros n k arg_name inp_name Hord Hmax Hk;
    [discriminate|].
  destruct c as [T name val|T name val|name device regular|a0 inp0|name device];
    simpl in *; try (apply (IH n k); [exact Hord|lia|exact Hk]).
  - destruct (IH (S n) k arg_name inp_name Hord ltac:(lia) Hk) as [Hrec Hin].
    split; [|exact Hin]. rewrite Hrec. do 3 f_equal. lia.
  - destruct (added_inputs rest) as [|d ds] eqn:Hnone; [|discriminate].
    assert (Hnone' : added_inputs (CallAddArgumentInput a0 inp0 :: rest) = [])
      by exact Hnone.
    destruct (recorded_without_inputs (CallAddArgumentInput a0 inp0 :: rest)
                n k arg_name inp_name Hnone' ltac:(simpl; lia) Hk) as [Hrec Hin].
    simpl in Hrec, Hin. rewrite Nat.add_0_r. split; [exact Hrec|exact Hin].
Qed.

Lemma regular_inputs_first (cs : list BuilderCall) :
  forall (k : nat) (d : InOutDeviceDesc),
    inputs_before_argument_inputs cs = true ->
    added_inputs cs !! k = Some d ->
    flat_map new_inputs cs !! k = Some d.
Proof.
  induction cs as [|c rest IH]; intros k d Hord Hk; [discriminate|].
  destruct c as [T name val|T name val|name device regular|a0 inp0|name device];
    simpl in *; try (apply (IH k d Hord Hk)).
  - destruct k as [|k]; simpl in *; [exact Hk|]. apply (IH k d Hord Hk).
  - unfold added_inputs in Hk. simpl in Hk. fold (added_inputs rest) in Hk.
    destruct (added_inputs rest); [discriminate|discriminate].
Qed.

(** The two sequences of a specification built from a new one. *)
Lemma built_inputs
    (registry : SchemaRegistry) (schema_name : string)
    (cs : list BuilderCall) (spec : OpSpec) :
  run_calls cs (OpSpec_new registry schema_name) = Ok spec ->
  Z.of_nat (length (inputs_ spec)) <= INT_MAX ->
  inputs_ spec = flat_map new_inputs cs /\
  argument_inputs_ spec = recorded 0 cs /\
  NumInput spec =
    Z.of_nat (length (added_inputs cs)) + Z.of_nat (length (added_argument_inputs cs)) /\
  NumArgumentInput spec = Z.of_nat (length (added_argument_inputs cs)) /\
  NumRegularInput spec = Z.of_nat (length (added_inputs cs)).
Proof.
  intros Hrun Hmax.
  assert (Hinv : argument_inputs_counted spec).
  { apply (run_calls_counted cs _ _ Hrun). unfold argument_inputs_counted. simpl. lia. }
  destruct (input_accessors spec Hinv Hmax) as (Hni & Hna & Hnr).
  destruct (run_calls_inputs cs _ _ Hrun) as [Hin Harg]. simpl in Hin, Harg.
  rewrite Hni, Hna, Hnr, Hin, Harg, length_recorded, length_new_inputs.
  repeat split; lia.
Qed.

(** Reading an input by an index within range. *)
Lemma InputName_lookup (spec : OpSpec) (i : nat) (d : InOutDeviceDesc) :
  Z.of_nat (length (inputs_ spec)) <= INT_MAX ->
  inputs_ spec !! i = Some d ->
  InputName spec (Z.of_nat i) = Ok (desc_name d).
Proof.
  intros Hmax Hd. apply lookup_lt_Some in Hd as Hlt.
  unfold InputName, NumInput. rewrite int_of_size_small by exact Hmax.
  rewrite valid_index_in_range by lia. rewrite mbind_Ok.
  rewrite (vector_at_lookup _ (Z.of_nat i) d); [reflexivity|lia|now rewrite Nat2Z.id].
Qed.

(** C9, counterexample.  [AddInput] called with [regular_input = false]
    after an argument input: the argument input is the input 0, the
    accessors take the input 1 for it. *)
Lemma argument_input_not_at_tail :
  exists spec,
    run_calls [ CallAddArgumentInput "crop_pos_x" "crop_x_data";
                CallAddInput "late" "cpu" false ]
      (OpSpec_new Ex.registry "ImageDecoder") = Ok spec /\
    argument_inputs_ spec = [("crop_pos_x", 0)] /\
    ArgumentInputIdx spec "crop_pos_x" = Ok 0 /\
    InputName spec 0 = Ok "crop_x_data" /\
    NumRegularInput spec = 1 /\
    IsArgumentInput spec 0 = Ok false /\
    IsArgumentInput spec 1 = Ok true /\
    ArgumentInputName spec 1 = Ok "crop_pos_x" /\
    InputName spec 1 = Ok "late" /\
    ~ argument_inputs_at_tail spec.
Proof.
  eexists. split; [vm_compute; reflexivity|].
  repeat (split; [vm_compute; reflexivity|]).
  intros Htail. specialize (Htail 0%nat "crop_pos_x" 0 eq_refl).
  vm_compute in Htail. discriminate.
Qed.

(** C9, amended.  After any sequence of builder calls on a new
    specification in which no [AddInput] call follows an
    [AddArgumentInput] call (with at most [INT_MAX] inputs, so that the
    [int] counters are exact), the argument inputs are the last inputs:
    [NumInput() = NumRegularInput() + NumArgumentInput()], the regular
    inputs being the ones added by [AddInput]; [IsArgumentInput(idx)]
    holds exactly when [NumRegularInput() <= idx < NumInput()];
    [ArgumentInputName(idx)] returns the name stored at position
    [idx - NumRegularInput()] of the argument-input sequence, and the
    input index stored with it is [idx]; the [k]-th [AddArgumentInput]
    call is found at index [NumRegularInput() + k], by its argument name
    and its input name; the [k]-th [AddInput] call is the input [k] and no
    argument input. *)
Theorem argument_inputs_occupy_tail
    (registry : SchemaRegistry) (schema_name : string)
    (cs : list BuilderCall) (spec : OpSpec) :
  run_calls cs (OpSpec_new registry schema_name) = Ok spec ->
  inputs_before_argument_inputs cs = true ->
  Z.of_nat (length (inputs_ spec)) <= INT_MAX ->
  NumInput spec = NumRegularInput spec + NumArgumentInput spec /\
  NumRegularInput spec = Z.of_nat (length (added_inputs cs)) /\
  NumArgumentInput spec = Z.of_nat (length (added_argument_inputs cs)) /\
  (forall idx,
     IsArgumentInput spec idx = Ok true <->
     NumRegularInput spec <= idx < NumInput spec) /\
  (forall idx,
     NumRegularInput spec <= idx < NumInput spec ->
     exists name,
       argument_inputs_ spec !! Z.to_nat (idx - NumRegularInput spec) = Some (name, idx) /\
       ArgumentInputName spec idx = Ok name) /\
  argument_inputs_at_tail spec /\
  (forall (k : nat) arg_name inp_name,
     added_argument_inputs cs !! k = Some (arg_name, inp_name) ->
     IsArgumentInput spec (NumRegularInput spec + Z.of_nat k) = Ok true /\
     ArgumentInputName spec (NumRegularInput spec + Z.of_nat k) = Ok arg_name /\
     InputName spec (NumRegularInput spec + Z.of_nat k) = Ok inp_name) /\
  (forall (k : nat) d,
     added_inputs cs !! k = Some d ->
     IsArgumentInput spec (Z.of_nat k) = Ok false /\
     InputName spec (Z.of_nat k) = Ok (desc_name d)).
Proof.
  intros Hrun Hord Hmax.
  destruct (built_inputs registry schema_name cs spec Hrun Hmax)
    as (Hin & Harg & Hni & Hna & Hnr).
  assert (Hlen : length (inputs_ spec) =
                 (length (added_inputs cs) + length (added_argument_inputs cs))%nat)
    by (rewrite Hin; apply length_new_inputs).
  assert (Hbound : Z.of_nat (0 + length (flat_map new_inputs cs)) <= INT_MAX)
    by (rewrite <- Hin; simpl; exact Hmax).
  assert (Hsmall : forall z, 0 <= z <= Z.of_nat (length (inputs_ spec)) -> to_int z = z).
  { intros z Hz. apply to_int_small.
    unfold INT_MAX in Hmax. change (2 ^ 31) with 2147483648 in *. lia. }
  assert (Hisarg : forall idx,
             IsArgumentInput spec idx = Ok true <->
             NumRegularInput spec <= idx < NumInput spec).
  { intros idx. unfold IsArgumentInput, DALI_ENFORCE_VALID_INDEX.
    rewrite Hnr, Hni.
    destruct (bool_decide (0 <= idx)) eqn:Hlo;
      destruct (bool_decide
                  (idx < Z.of_nat (length (added_inputs cs)) +
                         Z.of_nat (length (added_argument_inputs cs)))) eqn:Hhi;
      simpl;
      try apply bool_decide_eq_true_1 in Hlo; try apply bool_decide_eq_false_1 in Hlo;
      try apply bool_decide_eq_true_1 in Hhi; try apply bool_decide_eq_false_1 in Hhi;
      (split; [intros Hok|intros Hrange]); try discriminate; try lia.
    - injection Hok as Hok. apply bool_decide_eq_true_1 in Hok. lia.
    - f_equal. apply bool_decide_eq_true_2. lia. }
  assert (Hstored : forall (k : nat) arg_name inp_name,
             added_argument_inputs cs !! k = Some (arg_name, inp_name) ->
             argument_inputs_ spec !! k =
               Some (arg_name, NumRegularInput spec + Z.of_nat k) /\
             inputs_ spec !! (length (added_inputs cs) + k)%nat =
               Some (mkInOutDeviceDesc inp_name "cpu")).
  { intros k arg_name inp_name Hk.
    destruct (recorded_after_inputs cs 0 k arg_name inp_name Hord Hbound Hk)
      as [Hrec Hinp].
    rewrite Harg, Hin, Hnr. split; [|exact Hinp].
    rewrite Hrec. do 3 f_equal. lia. }
  assert (Hname : forall (k : nat) name,
             argument_inputs_ spec !! k = Some (name, NumRegularInput spec + Z.of_nat k) ->
             ArgumentInputName spec (NumRegularInput spec + Z.of_nat k) = Ok name).
  { intros k name Hk. apply lookup_lt_Some in Hk as Hlt.
    rewrite Harg, length_recorded in Hlt.
    unfold ArgumentInputName.
    rewrite (proj2 (Hisarg _)) by lia.
    rewrite mbind_Ok, DALI_ENFORCE_true, mbind_Ok.
    replace (NumRegularInput spec + Z.of_nat k - NumRegularInput spec)
      with (Z.of_nat k) by lia.
    rewrite Hsmall by lia.
    rewrite (vector_at_lookup _ (Z.of_nat k) (name, NumRegularInput spec + Z.of_nat k));
      [reflexivity|lia|now rewrite Nat2Z.id]. }
  split; [lia|]. split; [exact Hnr|]. split; [exact Hna|]. split; [exact Hisarg|].
  split; [|split; [|split]].
  - intros idx Hrange. rewrite Hnr, Hni in Hrange.
    destruct (lookup_lt_is_Some_2 (added_argument_inputs cs)
                (Z.to_nat (idx - NumRegularInput spec))) as [[arg_name inp_name] Hk];
      [rewrite Hnr; lia|].
    destruct (Hstored _ _ _ Hk) as [Hrec _].
    replace (NumRegularInput spec + Z.of_nat (Z.to_nat (idx - NumRegularInput spec)))
      with idx in Hrec by (rewrite Hnr; lia).
    exists arg_name. split; [exact Hrec|].
    replace idx with
      (NumRegularInput spec + Z.of_nat (Z.to_nat (idx - NumRegularInput spec)))
      at 1 by (rewrite Hnr; lia).
    apply Hname.
    replace (NumRegularInput spec + Z.of_nat (Z.to_nat (idx - NumRegularInput spec)))
      with idx by (rewrite Hnr; lia).
    exact Hrec.
  - intros k name i Hk. apply lookup_lt_Some in Hk as Hlt.
    rewrite Harg, length_recorded in Hlt.
    destruct (lookup_lt_is_Some_2 (added_argument_inputs cs) k Hlt)
      as [[arg_name inp_name] Hcall].
    destruct (Hstored _ _ _ Hcall) as [Hrec _].
    rewrite Hrec in Hk. now injection Hk as _ <-.
  - intros k arg_name inp_name Hk. apply lookup_lt_Some in Hk as Hlt.
    destruct (Hstored _ _ _ Hk) as [Hrec Hinp].
    split; [apply Hisarg; lia|]. split; [now apply Hname|].
    rewrite Hnr, <- Nat2Z.inj_add.
    now rewrite (InputName_lookup spec _ _ Hmax Hinp).
  - intros k d Hk. apply lookup_lt_Some in Hk as Hlt.
    pose proof (regular_inputs_first cs k d Hord Hk) as Hinp. rewrite <- Hin in Hinp.
    split; [|now apply InputName_lookup].
    unfold IsArgumentInput. rewrite Hni, Hnr.
    rewrite valid_index_in_range by lia. rewrite mbind_Ok.
    f_equal. apply bool_decide_eq_false_2. lia.
Qed.

Lemma argument_inputs_occupy_tail_witness :
  NumInput Ex.spec = NumRegularInput Ex.spec + NumArgumentInput Ex.spec /\
  NumRegularInput Ex.spec = 1 /\
  IsArgumentInput Ex.spec 1 = Ok true /\
  ArgumentInputName Ex.spec 1 = Ok "crop_pos_x" /\
  InputName Ex.spec 1 = Ok "crop_x_data" /\
  IsArgumentInput Ex.spec 0 = Ok false /\
  InputName Ex.spec 0 = Ok "encoded".
Proof.
  destruct (argument_inputs_occupy_tail Ex.registry "ImageDecoder" Ex.calls Ex.spec
              Ex_spec_built ltac:(vm_compute; reflexivity) ltac:(vm_compute; congruence))
    as (Hsum & Hnr & _ & _ & _ & _ & Hargs & Hregs).
  destruct (Hargs 0%nat "crop_pos_x" "crop_x_data" ltac:(reflexivity))
    as (Hisarg & Hname & Hinp).
  destruct (Hregs 0%nat (mkInOutDeviceDesc "encoded" "cpu") ltac:(reflexivity))
    as (Hreg & Hregname).
  rewrite Hnr in Hisarg, Hname, Hinp.
  split; [exact Hsum|]. split; [exact Hnr|].
  split; [exact Hisarg|]. split; [exact Hname|]. split; [exact Hinp|].
  split; [exact Hreg|exact Hregname].
Defined.

(** ** Choice of the decode backend *)



(** ** Opening a file stream *)



(* ===================================================================== *)
(** * Part III: further properties of the code                            *)
(* ===================================================================== *)

(** ** [CheckScalarArgumentShape] *)

Lemma uniform_scalar_rest (first : TensorShape) (rest : list TensorShape) :
  forallb (fun sh => bool_decide (sh = first)) rest = true ->
  scalar_sample first = true ->
  forallb scalar_sample rest = true.
Proof.
  intros Hall Hfirst. induction rest as [|sh rest IH]; simpl; [reflexivity|].
  simpl in Hall. apply andb_true_iff in Hall as [Hsh Hrest].
  apply bool_decide_eq_true_1 in Hsh. subst sh.
  rewrite Hfirst. simpl. now apply IH.
Qed.

(** X1. On a uniform batch [CheckScalarArgumentShape] is decided by the
    first sample: a batch without samples is accepted, and otherwise the
    batch is accepted exactly when the first sample holds one element or
    has an empty shape.  A rejected batch gives [false], or the
    [ShapeMismatch] error when [should_throw] is set; a batch that is not
    uniform raises whatever [should_throw] says. *)
Theorem CheckScalarArgumentShape_first_sample
    (shape : TensorListShape) (batch_size : Z) (name : string) (should_throw : bool) :
  CheckScalarArgumentShape shape batch_size name should_throw =
    if is_uniform shape then
      match shape with
      | [] => Ok true
      | first :: _ =>
          if scalar_sample first then Ok true
          else if should_throw
               then Throw (mkException ShapeMismatch
                             (unexpected_shape_message name batch_size shape))
               else Ok false
      end
    else Throw (mkException NonUniformArgument (non_uniform_message name)).
Proof.
  unfold CheckScalarArgumentShape.
  destruct (is_uniform shape) eqn:Hu; [|reflexivity].
  rewrite DALI_ENFORCE_true, mbind_Ok, scalar_shape_loop_forallb. simpl andb.
  destruct shape as [|first rest].
  - destruct should_throw; reflexivity.
  - simpl in Hu. simpl forallb. fold (scalar_sample first).
    destruct (scalar_sample first) eqn:Hfirst; simpl andb.
    + rewrite (uniform_scalar_rest first rest Hu Hfirst). simpl.
      destruct should_throw; reflexivity.
    + destruct should_throw; reflexivity.
Qed.

(** ** Inputs and outputs by index *)

(** X2. With at most [INT_MAX] inputs and outputs: for an index within
    [0, NumInput()) the three readers agree on one element of [inputs_],
    [Input(idx)] being [TensorName(InputName(idx), InputDevice(idx))]; for
    any other index each of them fails with the invalid-index error.  The
    same holds for the outputs. *)
Theorem input_output_readers (spec : OpSpec) (idx : Z) :
  Z.of_nat (length (inputs_ spec)) <= INT_MAX ->
  Z.of_nat (length (outputs_ spec)) <= INT_MAX ->
  (0 <= idx < NumInput spec ->
     exists d, inputs_ spec !! Z.to_nat idx = Some d /\
       InputName spec idx = Ok (desc_name d) /\
       InputDevice spec idx = Ok (desc_device d) /\
       Input spec idx = Ok (TensorName (desc_name d) (desc_device d))) /\
  (~ (0 <= idx < NumInput spec) ->
     failure_kind (InputName spec idx) = Some InvalidIndex /\
     failure_kind (InputDevice spec idx) = Some InvalidIndex /\
     failure_kind (Input spec idx) = Some InvalidIndex) /\
  (0 <= idx < NumOutput spec ->
     exists d, outputs_ spec !! Z.to_nat idx = Some d /\
       OutputName spec idx = Ok (desc_name d) /\
       OutputDevice spec idx = Ok (desc_device d) /\
       Output spec idx = Ok (TensorName (desc_name d) (desc_device d))) /\
  (~ (0 <= idx < NumOutput spec) ->
     failure_kind (OutputName spec idx) = Some InvalidIndex /\
     failure_kind (OutputDevice spec idx) = Some InvalidIndex /\
     failure_kind (Output spec idx) = Some InvalidIndex).
Proof.
  intros Hin Hout.
  assert (Hni : NumInput spec = Z.of_nat (length (inputs_ spec)))
    by now apply int_of_size_small.
  assert (Hno : NumOutput spec = Z.of_nat (length (outputs_ spec)))
    by now apply int_of_size_small.
  unfold InputName, InputDevice, Input, OutputName, OutputDevice, Output.
  split; [|split; [|split]].
  - intros Hidx. rewrite (valid_index_in_range _ _ Hidx), !mbind_Ok.
    destruct (lookup_lt_is_Some_2 (inputs_ spec) (Z.to_nat idx)) as [d Hd]; [lia|].
    exists d. rewrite (vector_at_lookup _ _ _ (proj1 Hidx) Hd). auto.
  - intros Hidx. destruct (valid_index_out_of_range _ _ Hidx) as (e & -> & Hk).
    simpl. rewrite Hk. auto.
  - intros Hidx. rewrite (valid_index_in_range _ _ Hidx), !mbind_Ok.
    destruct (lookup_lt_is_Some_2 (outputs_ spec) (Z.to_nat idx)) as [d Hd]; [lia|].
    exists d. rewrite (vector_at_lookup _ _ _ (proj1 Hidx) Hd). auto.
  - intros Hidx. destruct (valid_index_out_of_range _ _ Hidx) as (e & -> & Hk).
    simpl. rewrite Hk. auto.
Qed.

Lemma input_output_readers_witness :
  Input Ex.spec 0 = Ok "encoded_cpu" /\
  failure_kind (Input Ex.spec 2) = Some InvalidIndex /\
  Output Ex.spec 0 = Ok "decoded_gpu" /\
  failure_kind (OutputName Ex.spec (-1)) = Some InvalidIndex.
Proof.
  assert (Hin : Z.of_nat (length (inputs_ Ex.spec)) <= INT_MAX)
    by (vm_compute; congruence).
  assert (Hout : Z.of_nat (length (outputs_ Ex.spec)) <= INT_MAX)
    by (vm_compute; congruence).
  assert (Hni : NumInput Ex.spec = 2) by (vm_compute; reflexivity).
  assert (Hno : NumOutput Ex.spec = 1) by (vm_compute; reflexivity).
  split; [|split; [|split]].
  - destruct (input_output_readers Ex.spec 0 Hin Hout) as (Hread & _).
    destruct (Hread ltac:(rewrite Hni; lia)) as (d & Hd & _ & _ & ->).
    vm_compute in Hd. injection Hd as <-. reflexivity.
  - destruct (input_output_readers Ex.spec 2 Hin Hout) as (_ & Hfail & _).
    apply Hfail. rewrite Hni. lia.
  - destruct (input_output_readers Ex.spec 0 Hin Hout) as (_ & _ & Hread & _).
    destruct (Hread ltac:(rewrite Hno; lia)) as (d & Hd & _ & _ & ->).
    vm_compute in Hd. injection Hd as <-. reflexivity.
  - destruct (input_output_readers Ex.spec (-1) Hin Hout) as (_ & _ & _ & Hfail).
    apply Hfail. rewrite Hno. lia.
Defined.

(** ** Tensor names *)

Lemma length_append (a b : string) :
  String.length (a +:+ b) = (String.length a + String.length b)%nat.
Proof.
  induction a as [|ch a IH]; [reflexivity|].
  change (S (String.length (a +:+ b)) = S (String.length a + String.length b)).
  now rewrite IH.
Qed.

Lemma append_eq_same_length (a c b d : string) :
  String.length b = String.length d ->
  a +:+ b = c +:+ d -> a = c /\ b = d.
Proof.
  revert c. induction a as [|ch a IH]; intros [|ch' c] Hlen Heq.
  - auto.
  - change (b = String ch' (c +:+ d)) in Heq.
    apply (f_equal String.length) in Heq. simpl in Heq.
    rewrite length_append in Heq. lia.
  - change (String ch (a +:+ b) = d) in Heq.
    apply (f_equal String.length) in Heq. simpl in Heq.
    rewrite length_append in Heq. lia.
  - change (String ch (a +:+ b) = String ch' (c +:+ d)) in Heq.
    injection Heq as -> Heq. destruct (IH c Hlen Heq) as [-> ->]. auto.
Qed.

(** X3. For the devices an input or output may have, [cpu] and [gpu],
    [TensorName] tells apart any two (name, device) pairs: equal tensor
    names come from equal names and equal devices.  For arbitrary device
    strings it does not. *)
Theorem TensorName_injective (name1 device1 name2 device2 : string) :
  (valid_device device1 = true -> valid_device device2 = true ->
   TensorName name1 device1 = TensorName name2 device2 ->
   name1 = name2 /\ device1 = device2) /\
  TensorName "a_b" "c" = TensorName "a" "b_c".
Proof.
  split; [|reflexivity].
  unfold valid_device, TensorName. intros Hd1 Hd2 Heq.
  assert (Hlen : String.length ("_" +:+ device1) = String.length ("_" +:+ device2)).
  { apply orb_true_iff in Hd1 as [Hd1|Hd1]; apply bool_decide_eq_true_1 in Hd1;
      apply orb_true_iff in Hd2 as [Hd2|Hd2]; apply bool_decide_eq_true_1 in Hd2;
      subst; reflexivity. }
  destruct (append_eq_same_length _ _ _ _ Hlen Heq) as [-> Hdev].
  split; [reflexivity|].
  change (String "_" device1 = String "_" device2) in Hdev. now injection Hdev.
Qed.

Lemma TensorName_injective_witness :
  valid_device "gpu" = true /\
  TensorName "images" "gpu" = "images_gpu" /\
  ("images" = "images" /\ "gpu" = "gpu").
Proof.
  split; [reflexivity|]. split; [reflexivity|].
  destruct (TensorName_injective "images" "gpu" "images" "gpu") as [Hinj _].
  apply Hinj; reflexivity.
Defined.

(** ** The order on (name, device) pairs *)

Lemma ascii_compare_refl (a : ascii) : Ascii.compare a a = Eq.
Proof. unfold Ascii.compare. apply N.compare_refl. Qed.

Lemma ascii_compare_lt_trans (a b c : ascii) :
  Ascii.compare a b = Lt -> Ascii.compare b c = Lt -> Ascii.compare a c = Lt.
Proof.
  unfold Ascii.compare. rewrite !N.compare_lt_iff. lia.
Qed.

Lemma string_compare_refl (s : string) : String.compare s s = Eq.
Proof.
  induction s as [|ch s IH]; simpl; [reflexivity|].
  now rewrite ascii_compare_refl.
Qed.

Lemma string_compare_lt_trans (a b c : string) :
  String.compare a b = Lt -> String.compare b c = Lt -> String.compare a c = Lt.
Proof.
  revert b c. induction a as [|x a IH]; intros [|y b] [|z c]; simpl;
    try discriminate; try reflexivity.
  destruct (Ascii.compare x y) eqn:Hxy; try discriminate;
    destruct (Ascii.compare y z) eqn:Hyz; try discriminate; intros Hab Hbc.
  - apply Ascii.compare_eq_iff in Hxy. apply Ascii.compare_eq_iff in Hyz. subst.
    rewrite ascii_compare_refl. now apply (IH b c).
  - apply Ascii.compare_eq_iff in Hxy. subst. now rewrite Hyz.
  - apply Ascii.compare_eq_iff in Hyz. subst. now rewrite Hxy.
  - now rewrite (ascii_compare_lt_trans x y z Hxy Hyz).
Qed.

Lemma string_lt_spec (a b : string) :
  string_lt a b = true <-> String.compare a b = Lt.
Proof.
  unfold string_lt, String.ltb. destruct (String.compare a b); split; congruence.
Qed.

Lemma string_lt_irrefl (a : string) : string_lt a a = false.
Proof. unfold string_lt, String.ltb. now rewrite string_compare_refl. Qed.

Lemma string_lt_trans (a b c : string) :
  string_lt a b = true -> string_lt b c = true -> string_lt a c = true.
Proof. rewrite !string_lt_spec. apply string_compare_lt_trans. Qed.

Lemma string_lt_asym (a b : string) :
  string_lt a b = true -> string_lt b a = false.
Proof.
  rewrite string_lt_spec. intros Hab. unfold string_lt, String.ltb.
  rewrite String.compare_antisym, Hab. reflexivity.
Qed.

Lemma string_lt_total (a b : string) :
  string_lt a b = false -> string_lt b a = false -> a = b.
Proof.
  unfold string_lt, String.ltb. rewrite (String.compare_antisym b a).
  destruct (String.compare a b) eqn:Hab; simpl; try discriminate.
  intros _ _. now apply String.compare_eq_iff.
Qed.

(** X4. [InOutDeviceDesc::operator<] is a strict total order on the
    (name, device) pairs: no pair is below itself, the order is
    transitive, and two pairs neither of which is below the other are
    equal.  So [std::map<InOutDeviceDesc, int>] keeps one entry per
    (name, device) pair. *)
Theorem InOutDeviceDesc_lt_strict_total_order :
  (forall a, InOutDeviceDesc_lt a a = false) /\
  (forall a b c,
     InOutDeviceDesc_lt a b = true -> InOutDeviceDesc_lt b c = true ->
     InOutDeviceDesc_lt a c = true) /\
  (forall a b,
     InOutDeviceDesc_lt a b = false -> InOutDeviceDesc_lt b a = false -> a = b).
Proof.
  unfold InOutDeviceDesc_lt, pair_lt. simpl. split; [|split].
  - intros a. now rewrite !string_lt_irrefl.
  - intros [an ad] [bn bd] [cn cd]; simpl. intros Hab Hbc.
    apply orb_true_iff in Hab as [Hab|Hab]; apply orb_true_iff in Hbc as [Hbc|Hbc].
    + now rewrite (string_lt_trans an bn cn Hab Hbc).
    + apply andb_true_iff in Hbc as [Hcb Hbcd]. apply negb_true_iff in Hcb.
      destruct (string_lt bn cn) eqn:Hbn.
      * now rewrite (string_lt_trans an bn cn Hab Hbn).
      * rewrite <- (string_lt_total bn cn Hbn Hcb). now rewrite Hab.
    + apply andb_true_iff in Hab as [Hba Habd]. apply negb_true_iff in Hba.
      destruct (string_lt an bn) eqn:Han.
      * now rewrite (string_lt_trans an bn cn Han Hbc).
      * rewrite (string_lt_total an bn Han Hba). now rewrite Hbc.
    + apply andb_true_iff in Hab as [Hba Habd]. apply negb_true_iff in Hba.
      apply andb_true_iff in Hbc as [Hcb Hbcd]. apply negb_true_iff in Hcb.
      destruct (string_lt an bn) eqn:Han.
      * destruct (string_lt bn cn) eqn:Hbn.
        -- now rewrite (string_lt_trans an bn cn Han Hbn).
        -- rewrite <- (string_lt_total bn cn Hbn Hcb). now rewrite Han.
      * assert (an = bn) by now apply string_lt_total. subst bn.
        destruct (string_lt an cn) eqn:Hac; [reflexivity|].
        simpl. rewrite Hcb. simpl. now apply (string_lt_trans ad bd cd).
  - intros [an ad] [bn bd]; simpl. intros Hab Hba.
    apply orb_false_iff in Hab as [Hn1 Hd1]. apply orb_false_iff in Hba as [Hn2 Hd2].
    rewrite Hn2 in Hd1. rewrite Hn1 in Hd2. simpl in Hd1, Hd2.
    rewrite (string_lt_total an bn Hn1 Hn2), (string_lt_total ad bd Hd1 Hd2).
    reflexivity.
Qed.

(** ** Specifications without schema *)

(** X5. After [SetSchema(name)] with an empty or unregistered name the
    specification has no schema.  [GetArgument<T>] still returns a literal
    of the requested storage type, and fails with the no-schema error,
    naming the operator, for a name that is neither a tensor argument nor
    a literal; [TryGetArgument<T>] raises that error for every name that
    is not a tensor argument, the literals included. *)
Theorem schemaless_resolution
    (registry : SchemaRegistry) (schema_name : string) (spec0 : OpSpec)
    (T : CType) (name : string) (ws : option ArgumentWorkspace) (idx : Z) :
  schema_name = EmptyString \/ registry !! schema_name = None ->
  let spec := SetSchema registry schema_name spec0 in
  HasTensorArgument spec0 name = false ->
  (exists e, GetSchema spec = Throw e /\ kind e = NoSchema /\
             mentions (what e) schema_name) /\
  (exists e, TryGetArgument T spec name ws idx = Throw e /\ kind e = NoSchema) /\
  (argument_idxs_ spec0 !! name = None ->
     exists e, GetArgument T spec name ws idx = Throw e /\ kind e = NoSchema /\
               mentions (what e) schema_name) /\
  (forall i arg,
     argument_idxs_ spec0 !! name = Some i ->
     0 <= i -> arguments_ spec0 !! Z.to_nat i = Some arg ->
     stored_type arg = argument_storage_t T ->
     GetArgument T spec name ws idx = Ok (static_cast T (stored_value arg))).
Proof.
  intros Hname spec Htensor.
  assert (Hnone : schema_ spec = None).
  { unfold spec, SetSchema, TryGetSchema. simpl.
    destruct Hname as [->|Hreg]; [reflexivity|].
    rewrite Hreg. now destruct (bool_decide _). }
  assert (Hschema : exists e, GetSchema spec = Throw e /\ kind e = NoSchema /\
                              mentions (what e) schema_name).
  { unfold GetSchema. rewrite Hnone. eexists. split; [reflexivity|].
    split; [reflexivity|]. simpl. unfold mentions, SchemaName. simpl.
    exists ("No schema found for operator " +:+ dq), dq.
    now rewrite append_assoc. }
  destruct Hschema as (e & He & Hkind & Hwhat).
  assert (Ht : HasTensorArgument spec name = false) by exact Htensor.
  split; [eauto|]. split; [|split].
  - exists e. split; [|exact Hkind].
    unfold TryGetArgument, TryGetArgumentImpl. now rewrite Ht, He.
  - intros Hlit. exists e. split; [|auto].
    rewrite (GetArgument_unfold T spec name ws idx). unfold GetArgumentImpl_body.
    rewrite Ht. change (argument_idxs_ spec) with (argument_idxs_ spec0).
    now rewrite Hlit, He.
  - intros i arg Hi Hpos Harg Hty.
    rewrite (GetArgument_unfold T spec name ws idx). unfold GetArgumentImpl_body.
    rewrite Ht. change (argument_idxs_ spec) with (argument_idxs_ spec0).
    change (arguments_ spec) with (arguments_ spec0).
    rewrite Hi, (vector_at_lookup _ _ _ Hpos Harg), mbind_Ok.
    unfold Argument_Get, Argument_IsType.
    now rewrite bool_decide_eq_true_2 by exact Hty.
Qed.

Lemma schemaless_resolution_witness :
  (exists e, TryGetArgument t_string (SetSchema Ex.registry "NoSuchOperator" Ex.spec_no_schema)
               "device" None 0 = Throw e /\ kind e = NoSchema) /\
  GetArgument t_string (SetSchema Ex.registry "NoSuchOperator" Ex.spec_no_schema)
    "device" None 0 = Ok (VString "mixed").
Proof.
  destruct (schemaless_resolution Ex.registry "NoSuchOperator" Ex.spec_no_schema
              t_string "device" None 0
              ltac:(right; vm_compute; reflexivity)
              ltac:(vm_compute; reflexivity)) as (_ & Htry & _ & Hget).
  split; [exact Htry|].
  apply (Hget 0 (mkArgument "device" t_string (VString "mixed")));
    [vm_compute; reflexivity|lia|reflexivity|reflexivity].
Defined.

(** ** Writing through [MutableInput] and [MutableOutput] *)

(** X6. An assignment through [MutableOutput(idx)] replaces the output at
    [idx] and nothing else: [OutputName]/[OutputDevice] at [idx] read the
    new pair, the number of outputs is kept, and [output_name_idx_] is not
    touched, so [OutputIdxForName] answers exactly as before, for the old
    (name, device) of that output as well as for the new one.  An
    assignment through [MutableInput(idx)] likewise keeps [NumInput],
    [NumArgumentInput] and the recorded argument inputs. *)
Theorem assign_through_mutable_reference
    (spec spec' : OpSpec) (idx : Z) (d : InOutDeviceDesc) :
  (assign_MutableOutput idx d spec = Ok spec' ->
     MutableOutput spec' idx = Ok d /\
     OutputName spec' idx = Ok (desc_name d) /\
     OutputDevice spec' idx = Ok (desc_device d) /\
     NumOutput spec' = NumOutput spec /\
     (forall name device,
        OutputIdxForName spec' name device = OutputIdxForName spec name device) /\
     (forall j, j <> idx -> Output spec' j = Output spec j)) /\
  (assign_MutableInput idx d spec = Ok spec' ->
     MutableInput spec' idx = Ok d /\
     NumInput spec' = NumInput spec /\
     NumArgumentInput spec' = NumArgumentInput spec /\
     argument_inputs_ spec' = argument_inputs_ spec /\
     (forall j, IsArgumentInput spec' j = IsArgumentInput spec j) /\
     (forall j, j <> idx -> Input spec' j = Input spec j)).
Proof.
  split.
  - unfold assign_MutableOutput. intros Hassign.
    destruct (DALI_ENFORCE_VALID_INDEX idx (NumOutput spec)) as [[]|] eqn:Hvalid;
      [|discriminate].
    rewrite mbind_Ok in Hassign.
    destruct (vector_at (outputs_ spec) idx) as [old|] eqn:Hold; [|discriminate].
    rewrite mbind_Ok in Hassign. injection Hassign as Hspec.
    assert (Houts : outputs_ spec' = <[Z.to_nat idx := d]> (outputs_ spec))
      by (now rewrite <- Hspec).
    assert (Hmap : output_name_idx_ spec' = output_name_idx_ spec)
      by (now rewrite <- Hspec).
    clear Hspec. unfold vector_at in Hold.
    destruct (bool_decide (0 <= idx)) eqn:Hlo; [|discriminate].
    apply bool_decide_eq_true_1 in Hlo.
    destruct (outputs_ spec !! Z.to_nat idx) eqn:Hlook; [|discriminate].
    apply lookup_lt_Some in Hlook.
    assert (Hnum : NumOutput spec' = NumOutput spec)
      by (unfold NumOutput; now rewrite Houts, length_insert).
    unfold MutableOutput, OutputName, OutputDevice, Output, OutputIdxForName.
    rewrite Hnum, Hvalid, !mbind_Ok, Houts, Hmap.
    rewrite (vector_at_lookup _ _ d Hlo) by now apply list_lookup_insert_eq.
    repeat split.
    intros j Hj. destruct (DALI_ENFORCE_VALID_INDEX j (NumOutput spec)); [|reflexivity].
    rewrite !mbind_Ok. unfold vector_at.
    destruct (bool_decide (0 <= j)) eqn:Hjlo; [|reflexivity].
    apply bool_decide_eq_true_1 in Hjlo.
    rewrite list_lookup_insert_ne by lia. reflexivity.
  - unfold assign_MutableInput. intros Hassign.
    destruct (DALI_ENFORCE_VALID_INDEX idx (NumInput spec)) as [[]|] eqn:Hvalid;
      [|discriminate].
    rewrite mbind_Ok in Hassign.
    destruct (vector_at (inputs_ spec) idx) as [old|] eqn:Hold; [|discriminate].
    rewrite mbind_Ok in Hassign. injection Hassign as Hspec.
    assert (Hins : inputs_ spec' = <[Z.to_nat idx := d]> (inputs_ spec))
      by (now rewrite <- Hspec).
    assert (Hargs : argument_inputs_ spec' = argument_inputs_ spec)
      by (now rewrite <- Hspec).
    clear Hspec. unfold vector_at in Hold.
    destruct (bool_decide (0 <= idx)) eqn:Hlo; [|discriminate].
    apply bool_decide_eq_true_1 in Hlo.
    destruct (inputs_ spec !! Z.to_nat idx) eqn:Hlook; [|discriminate].
    apply lookup_lt_Some in Hlook.
    assert (Hnum : NumInput spec' = NumInput spec)
      by (unfold NumInput; now rewrite Hins, length_insert).
    assert (Hnarg : NumArgumentInput spec' = NumArgumentInput spec)
      by (unfold NumArgumentInput; now rewrite Hargs).
    unfold MutableInput, IsArgumentInput, Input, NumRegularInput.
    rewrite Hnum, Hnarg, Hvalid, !mbind_Ok, Hins.
    rewrite (vector_at_lookup _ _ d Hlo) by now apply list_lookup_insert_eq.
    repeat split; try assumption.
    intros j Hj. destruct (DALI_ENFORCE_VALID_INDEX j (NumInput spec)); [|reflexivity].
    rewrite !mbind_Ok. unfold vector_at.
    destruct (bool_decide (0 <= j)) eqn:Hjlo; [|reflexivity].
    apply bool_decide_eq_true_1 in Hjlo.
    rewrite list_lookup_insert_ne by lia. reflexivity.
Qed.

Lemma assign_through_mutable_reference_witness :
  exists spec',
    assign_MutableOutput 0 (mkInOutDeviceDesc "images" "cpu") Ex.spec = Ok spec' /\
    Output spec' 0 = Ok "images_cpu" /\
    OutputIdxForName spec' "decoded" "gpu" = Ok 0 /\
    failure_kind (OutputIdxForName spec' "images" "cpu") = Some InvalidIndex.
Proof.
  destruct (assign_MutableOutput 0 (mkInOutDeviceDesc "images" "cpu") Ex.spec)
    as [spec'|] eqn:Hassign; [|vm_compute in Hassign; discriminate].
  exists spec'. split; [reflexivity|].
  destruct (assign_through_mutable_reference Ex.spec spec' 0
              (mkInOutDeviceDesc "images" "cpu")) as [Hout _].
  destruct (Hout Hassign) as (_ & Hname & Hdev & _ & Hidx & _).
  split; [|split].
  - unfold Output. unfold OutputName in Hname. unfold OutputDevice in Hdev.
    destruct (DALI_ENFORCE_VALID_INDEX 0 (NumOutput spec')); [|discriminate].
    rewrite mbind_Ok in *.
    destruct (vector_at (outputs_ spec') 0) as [x|]; [|discriminate].
    rewrite mbind_Ok in *. injection Hname as Hname. injection Hdev as Hdev.
    now rewrite Hname, Hdev.
  - rewrite Hidx. vm_compute; reflexivity.
  - rewrite Hidx. vm_compute; reflexivity.
Defined.

(** ** Repeated arguments *)

Lemma vector_type_differs (S : CType) : t_vector S <> S.
Proof. induction S; try discriminate. intros [= H]. contradiction. Qed.

Lemma convert_vector_round_trip (T : CType) (vals : list Value) :
  Forall (has_type T) vals ->
  map (static_cast T) (map (static_cast (argument_storage_t T)) vals) = vals.
Proof.
  induction 1 as [|v vals Hv _ IH]; simpl; [reflexivity|].
  now rewrite (static_cast_round_trip T v Hv), IH.
Qed.

(** X7. [GetRepeatedArgument<T>] reads a literal whether or not the name
    is also a tensor argument, and never looks at a workspace.  A sequence
    of values of type [T] stored as [std::vector] of the storage type comes
    back element for element.  A literal stored as a single value, as
    [SetArg<T>(name, val)] stores it, is not converted to a sequence: the
    call fails with the type error, and [TryGetRepeatedArgument] (on a
    specification with a schema) returns [false]. *)
Theorem GetRepeatedArgument_literal
    (T : CType) (spec : OpSpec) (name : string) (i : Z) (arg : Argument) :
  argument_idxs_ spec !! name = Some i ->
  0 <= i -> arguments_ spec !! Z.to_nat i = Some arg ->
  (forall vals,
     arg = Argument_Store (t_vector (argument_storage_t T)) name
             (VVector (map (static_cast (argument_storage_t T)) vals)) ->
     Forall (has_type T) vals ->
     GetRepeatedArgument T spec name = Ok (VVector vals)) /\
  (forall val,
     arg = Argument_Store (argument_storage_t T) name val ->
     failure_kind (GetRepeatedArgument T spec name) = Some TypeMismatch /\
     (is_Some (schema_ spec) -> TryGetRepeatedArgument T spec name = Ok None)).
Proof.
  intros Hi Hpos Harg.
  unfold GetRepeatedArgument, GetRepeatedArgumentImpl,
    TryGetRepeatedArgument, TryGetRepeatedArgumentImpl.
  rewrite Hi, (vector_at_lookup _ _ _ Hpos Harg), !mbind_Ok.
  split.
  - intros vals -> Hvals. unfold Argument_Get, Argument_IsType, Argument_Store. simpl.
    rewrite bool_decide_eq_true_2 by reflexivity. simpl.
    now rewrite (convert_vector_round_trip T vals Hvals).
  - intros val ->. unfold Argument_Get, Argument_IsType, Argument_Store. simpl.
    rewrite bool_decide_eq_false_2
      by (intros Heq; symmetry in Heq; now apply vector_type_differs in Heq).
    split; [reflexivity|].
    intros [schema Hschema]. unfold GetSchema. now rewrite Hschema.
Qed.

Lemma GetRepeatedArgument_literal_witness :
  GetRepeatedArgument t_int32 Ex.spec_repeated "crop" = Ok (VVector [VInt 224; VInt (-1)]) /\
  failure_kind (GetRepeatedArgument t_uint32 Ex.spec "hybrid_huffman_threshold") =
    Some TypeMismatch /\
  TryGetRepeatedArgument t_uint32 Ex.spec "hybrid_huffman_threshold" = Ok None.
Proof.
  split.
  - destruct (GetRepeatedArgument_literal t_int32 Ex.spec_repeated "crop" 0
                (mkArgument "crop" (t_vector t_int64) (VVector [VInt 224; VInt (-1)]))
                ltac:(vm_compute; reflexivity) ltac:(lia) ltac:(reflexivity))
      as [Hvector _].
    apply (Hvector [VInt 224; VInt (-1)]); [reflexivity|].
    repeat constructor; vm_compute; congruence.
  - destruct (GetRepeatedArgument_literal t_uint32 Ex.spec "hybrid_huffman_threshold" 1
                (mkArgument "hybrid_huffman_threshold" t_int64 (VInt UINT_MAX))
                ltac:(vm_compute; reflexivity) ltac:(lia) ltac:(reflexivity))
      as [_ Hscalar].
    destruct (Hscalar (VInt UINT_MAX) ltac:(reflexivity)) as [Hget Htry].
    split; [exact Hget|]. apply Htry. simpl. eauto.
Defined.

(** X8. On a specification with a schema whose argument indices are
    positions of [arguments_], [TryGetRepeatedArgument] returns [true]
    with the sequence exactly when [GetRepeatedArgument] returns that
    sequence, and [false] where [GetRepeatedArgument] raises. *)
Theorem TryGetRepeatedArgument_signals
    (T : CType) (spec : OpSpec) (name : string) :
  is_Some (schema_ spec) ->
  (forall i, argument_idxs_ spec !! name = Some i ->
     0 <= i /\ is_Some (arguments_ spec !! Z.to_nat i)) ->
  TryGetRepeatedArgument T spec name =
    Ok (match GetRepeatedArgument T spec name with
        | Ok v => Some v
        | Throw _ => None
        end).
Proof.
  intros [schema Hschema] Hidxs.
  unfold GetRepeatedArgument, GetRepeatedArgumentImpl,
    TryGetRepeatedArgument, TryGetRepeatedArgumentImpl, GetSchema.
  rewrite Hschema, !mbind_Ok.
  destruct (argument_idxs_ spec !! name) as [i|] eqn:Hi.
  - destruct (Hidxs i eq_refl) as [Hpos [arg Harg]].
    rewrite (vector_at_lookup _ _ _ Hpos Harg), !mbind_Ok.
    unfold Argument_Get.
    destruct (Argument_IsType (t_vector (argument_storage_t T)) arg); reflexivity.
  - unfold OpSchema_HasArgument, OpSchema_HasArgumentDefaultValue,
      OpSchema_FindDefaultValue, OpSchema_GetDefaultValueForArgument.
    destruct (schema_arguments schema !! name) as [decl|] eqn:Hdecl.
    + rewrite bool_decide_eq_true_2 by eauto. simpl.
      destruct (decl_default decl) as [inst|] eqn:Hdefault.
      * rewrite bool_decide_eq_true_2 by eauto.
        destruct (bool_decide (value_type inst = t_vector (argument_storage_t T)));
          reflexivity.
      * rewrite bool_decide_eq_false_2 by (intros [? ?]; discriminate).
        reflexivity.
    + rewrite bool_decide_eq_false_2 by (intros [? ?]; discriminate).
      reflexivity.
Qed.

Lemma TryGetRepeatedArgument_signals_witness :
  TryGetRepeatedArgument t_string Ex.spec "device" = Ok None /\
  TryGetRepeatedArgument t_int32 Ex.spec "max_batch_size" = Ok None.
Proof.
  split.
  - rewrite (TryGetRepeatedArgument_signals t_string Ex.spec "device");
      [vm_compute; reflexivity|simpl; eauto|apply Ex_spec_literal_indices].
  - rewrite (TryGetRepeatedArgument_signals t_int32 Ex.spec "max_batch_size");
      [vm_compute; reflexivity|simpl; eauto|apply Ex_spec_literal_indices].
Defined.

(** ** Adding an argument that exists *)

(** X9. For a name that already has a literal, [AddArg] and
    [AddInitializedArg] are rejected, while [AddArgIfNotExisting] returns
    the specification as it is: the stored argument is not replaced. *)
Theorem add_existing_argument
    (T : CType) (name : string) (val : Value) (arg : Argument) (spec : OpSpec) :
  is_Some (argument_idxs_ spec !! name) ->
  AddArgIfNotExisting T name val spec = Ok spec /\
  failure_kind (AddArg T name val spec) = Some ConflictingSpecification /\
  failure_kind (AddInitializedArg name arg spec) = Some ConflictingSpecification.
Proof.
  intros Hexists.
  unfold AddArgIfNotExisting, AddArg, AddInitializedArg, EnforceNoAliasWithDeprecated.
  rewrite bool_decide_eq_true_2 by exact Hexists.
  split; [reflexivity|].
  destruct (set_through_deprecated_arguments_ spec !! name); split; reflexivity.
Qed.

Lemma add_existing_argument_witness :
  AddArgIfNotExisting t_string "device" (VString "cpu") Ex.spec = Ok Ex.spec /\
  failure_kind (AddArg t_string "device" (VString "cpu") Ex.spec) =
    Some ConflictingSpecification /\
  failure_kind (AddInitializedArg "device" (mkArgument "device" t_string (VString "cpu"))
                  Ex.spec) = Some ConflictingSpecification.
Proof.
  apply (add_existing_argument t_string "device" (VString "cpu")
           (mkArgument "device" t_string (VString "cpu")) Ex.spec).
  vm_compute. eauto.
Defined.

(** ** File streams *)

(** X10. [Close] is idempotent and keeps the path; [Size] asks the file
    system about the path and not the stream, so it answers the same on an
    open and on a closed stream: the size [stat] reports for the path, or
    an error whose message names the path and the text of the operating
    system's error. *)
Theorem Close_and_Size (os : StdFile.libc) (s : StdFile.StdFileStream) :
  StdFile.Close (StdFile.Close s) = StdFile.Close s /\
  StdFile.fp_ (StdFile.Close s) = None /\
  StdFile.path_ (StdFile.Close s) = StdFile.path_ s /\
  StdFile.Size os (StdFile.Close s) = StdFile.Size os s /\
  StdFile.Size os s =
    match StdFile.st_size os !! StdFile.path_ s with
    | Some size => Ok size
    | None =>
        Throw (mkException IOFailed
                 ("Unable to stat file " +:+ StdFile.path_ s +:+ ": " +:+
                  StdFile.strerror os (StdFile.stat_errno os (StdFile.path_ s))))
    end.
Proof.
  assert (Hpath : StdFile.path_ (StdFile.Close s) = StdFile.path_ s)
    by (unfold StdFile.Close; now destruct (StdFile.fp_ s)).
  split; [|split; [|split; [|split]]].
  - unfold StdFile.Close. destruct (StdFile.fp_ s) eqn:Hfp; simpl; [reflexivity|].
    now rewrite Hfp.
  - unfold StdFile.Close. destruct (StdFile.fp_ s) eqn:Hfp; simpl; [reflexivity|].
    exact Hfp.
  - exact Hpath.
  - unfold StdFile.Size. now rewrite Hpath.
  - unfold StdFile.Size, StdFile.stat.
    destruct (StdFile.st_size os !! StdFile.path_ s); reflexivity.
Qed.

Lemma drop_min_length {A} (l : list A) (n : nat) :
  drop (n `min` length l) l = drop n l.
Proof.
  destruct (decide (n <= length l)%nat) as [Hle|Hgt].
  - now rewrite Nat.min_l by exact Hle.
  - rewrite Nat.min_r by lia. rewrite drop_all. symmetry. apply drop_ge. lia.
Qed.

(** X11. For a regular file, where the size [stat] reports is the number
    of bytes a stream delivers: a freshly opened stream delivers the whole
    file in one [Read] of [Size()] bytes and is then at the end, where
    [TellRead] equals the size and a further [Read] returns no byte; and
    two [Read]s in a row deliver consecutive parts of the file, the second
    one starting where the first one stopped. *)
Theorem read_whole_file
    (os : StdFile.libc) (path : string) (bytes : list Z) (s : StdFile.StdFileStream) :
  StdFile.StdFileStream_new os path = Ok s ->
  StdFile.files os !! path = Some bytes ->
  StdFile.stat os path = inr (Z.of_nat (length bytes)) ->
  StdFile.Size os s = Ok (Z.of_nat (length bytes)) /\
  (exists s1,
     StdFile.Read (Z.of_nat (length bytes)) s = Ok (bytes, s1) /\
     StdFile.TellRead s1 = Ok (Z.of_nat (length bytes)) /\
     forall n_bytes, exists s2,
       StdFile.Read n_bytes s1 = Ok ([], s2) /\
       StdFile.TellRead s2 = Ok (Z.of_nat (length bytes))) /\
  (forall n m : nat, exists s1 s2,
     StdFile.Read (Z.of_nat n) s = Ok (take n bytes, s1) /\
     StdFile.Read (Z.of_nat m) s1 = Ok (take m (drop n bytes), s2) /\
     StdFile.TellRead s2 = Ok (Z.of_nat ((n + m) `min` length bytes))).
Proof.
  unfold StdFile.StdFileStream_new, StdFile.fopen. intros Hnew Hfile Hstat.
  rewrite Hfile in Hnew. injection Hnew as <-.
  split; [|split].
  - unfold StdFile.Size. simpl. now rewrite Hstat.
  - exists (StdFile.mkStdFileStream path
              (Some (StdFile.mkFILE bytes (Z.of_nat (length bytes))))).
    unfold StdFile.Read, StdFile.fread, StdFile.TellRead, StdFile.ftell. simpl.
    change (Z.to_nat 0) with 0%nat. rewrite drop_0, Nat2Z.id, firstn_all.
    split; [reflexivity|]. split; [reflexivity|].
    intros n_bytes.
    exists (StdFile.mkStdFileStream path
              (Some (StdFile.mkFILE bytes (Z.of_nat (length bytes))))).
    rewrite drop_all, take_nil. simpl. rewrite Z.add_0_r. split; reflexivity.
  - intros n m.
    unfold StdFile.Read, StdFile.fread, StdFile.TellRead, StdFile.ftell. simpl.
    change (Z.to_nat 0) with 0%nat. rewrite drop_0, !Nat2Z.id.
    eexists. eexists. split; [reflexivity|]. simpl.
    rewrite Z.add_0_l, Nat2Z.id, length_take, drop_min_length.
    split; [reflexivity|]. simpl. f_equal.
    rewrite length_take, length_drop. lia.
Qed.

Lemma read_whole_file_witness :
  exists s s1 s2,
    StdFile.StdFileStream_new Ex.os "img.jpg" = Ok s /\
    StdFile.Size Ex.os s = Ok 4 /\
    StdFile.Read 4 s = Ok ([255; 216; 255; 224], s1) /\
    StdFile.TellRead s1 = Ok 4 /\
    StdFile.Read 1 s1 = Ok ([], s2).
Proof.
  destruct (StdFile.StdFileStream_new Ex.os "img.jpg") as [s|] eqn:Hnew;
    [|vm_compute in Hnew; discriminate].
  destruct (read_whole_file Ex.os "img.jpg" [255; 216; 255; 224] s Hnew
              ltac:(vm_compute; reflexivity) ltac:(vm_compute; reflexivity))
    as (Hsize & (s1 & Hread & Htell & Hend) & _).
  destruct (Hend 1) as (s2 & Hnone & _).
  exists s, s1, s2. split; [reflexivity|]. split; [exact Hsize|].
  split; [exact Hread|]. split; [exact Htell|exact Hnone].
Defined.

(** X12. On a file with positions, [SeekRead] to an offset from the
    start that the file system accepts moves the stream there: [TellRead]
    returns [pos] and [Read] returns the bytes of the file from [pos] on,
    at most [n_bytes] of them, advancing [TellRead] by the number of bytes
    read.  A seek before the start of the file, beyond the largest offset
    the file system supports, or on a file without positions raises, and
    the message carries the text of the operating system's error. *)
Theorem SeekRead_then_Read
    (os : StdFile.libc) (s : StdFile.StdFileStream) (fp : StdFile.FILE)
    (pos n_bytes : Z) :
  StdFile.fp_ s = Some fp ->
  (forall limit,
     StdFile.max_offset os (StdFile.path_ s) = Some limit ->
     0 <= pos <= limit ->
     exists s1 s2,
       StdFile.SeekRead os pos StdFile.SEEK_SET s = Ok s1 /\
       StdFile.path_ s1 = StdFile.path_ s /\
       StdFile.TellRead s1 = Ok pos /\
       StdFile.Read n_bytes s1 =
         Ok (take (Z.to_nat n_bytes) (drop (Z.to_nat pos) (StdFile.file_bytes fp)), s2) /\
       StdFile.TellRead s2 =
         Ok (pos + Z.of_nat (length (take (Z.to_nat n_bytes)
                                       (drop (Z.to_nat pos) (StdFile.file_bytes fp)))))) /\
  (pos < 0 \/
   StdFile.max_offset os (StdFile.path_ s) = None \/
   (exists limit, StdFile.max_offset os (StdFile.path_ s) = Some limit /\ limit < pos) ->
     StdFile.SeekRead os pos StdFile.SEEK_SET s =
       Throw (mkException IOFailed
                ("Seek operation failed: " +:+
                 StdFile.strerror os (StdFile.seek_errno os (StdFile.path_ s) pos)))).
Proof.
  intros Hfp. unfold StdFile.SeekRead, StdFile.fseek. rewrite Hfp. simpl. split.
  - intros limit -> Hpos. rewrite bool_decide_eq_true_2 by exact Hpos.
    eexists. eexists. split; [reflexivity|].
    unfold StdFile.TellRead, StdFile.Read, StdFile.fread, StdFile.ftell. simpl.
    split; [reflexivity|]. split; [reflexivity|]. split; reflexivity.
  - intros Hout.
    destruct (StdFile.max_offset os (StdFile.path_ s)) as [limit|] eqn:Hlimit;
      [|reflexivity].
    rewrite bool_decide_eq_false_2; [reflexivity|].
    destruct Hout as [Hneg|[Hnone|(limit' & Hsome & Hfar)]];
      [lia|discriminate|injection Hsome as <-; lia].
Qed.

Lemma SeekRead_then_Read_witness :
  (exists s s1 s2,
     StdFile.StdFileStream_new Ex.os "img.jpg" = Ok s /\
     StdFile.SeekRead Ex.os 1 StdFile.SEEK_SET s = Ok s1 /\
     StdFile.Read 2 s1 = Ok ([216; 255], s2) /\
     StdFile.TellRead s2 = Ok 3) /\
  StdFile.SeekRead Ex.os (2 ^ 44) StdFile.SEEK_SET
    (StdFile.mkStdFileStream "img.jpg" (Some (StdFile.mkFILE [255; 216; 255; 224] 0))) =
    Throw (mkException IOFailed "Seek operation failed: Invalid argument").
Proof.
  destruct (SeekRead_then_Read Ex.os
              (StdFile.mkStdFileStream "img.jpg"
                 (Some (StdFile.mkFILE [255; 216; 255; 224] 0)))
              (StdFile.mkFILE [255; 216; 255; 224] 0) 1 2 eq_refl) as [Hseek _].
  destruct (SeekRead_then_Read Ex.os
              (StdFile.mkStdFileStream "img.jpg"
                 (Some (StdFile.mkFILE [255; 216; 255; 224] 0)))
              (StdFile.mkFILE [255; 216; 255; 224] 0) (2 ^ 44) 2 eq_refl) as [_ Hfar].
  split.
  - exists (StdFile.mkStdFileStream "img.jpg" (Some (StdFile.mkFILE [255; 216; 255; 224] 0))).
    destruct (Hseek (2 ^ 44 - 4096) ltac:(vm_compute; reflexivity)
                ltac:(vm_compute; split; congruence))
      as (s1 & s2 & Hs1 & _ & _ & Hread & Htell).
    exists s1, s2. split; [vm_compute; reflexivity|]. split; [exact Hs1|].
    split; [exact Hread|exact Htell].
  - rewrite Hfar; [vm_compute; reflexivity|].
    right; right. exists (2 ^ 44 - 4096). split; vm_compute; reflexivity.
Defined.

(** ** Literals set by the builder calls *)

Lemma store_argument_lookup (name : string) (arg : Argument) (spec : OpSpec) :
  argument_idxs_valid spec ->
  Z.of_nat (length (arguments_ (store_argument name arg spec))) <= INT_MAX ->
  exists i,
    argument_idxs_ (store_argument name arg spec) !! name = Some i /\
    0 <= i /\
    arguments_ (store_argument name arg spec) !! Z.to_nat i = Some arg.
Proof.
  unfold argument_idxs_valid, store_argument. intros Hvalid Hmax.
  destruct (argument_idxs_ spec !! name) as [i|] eqn:Hi; simpl in *.
  - exists i. destruct (Hvalid name i Hi) as [Hlo Hhi].
    split; [exact Hi|]. split; [exact Hlo|].
    apply list_lookup_insert_eq. lia.
  - rewrite length_app in Hmax. simpl in Hmax.
    exists (Z.of_nat (length (arguments_ spec))).
    rewrite int_of_size_small by lia. rewrite lookup_insert_eq.
    split; [reflexivity|]. split; [lia|].
    rewrite Nat2Z.id, lookup_app_r by lia.
    now rewrite Nat.sub_diag.
Qed.

Lemma store_argument_input_idxs (name : string) (arg : Argument) (spec : OpSpec) :
  argument_input_idxs_ (store_argument name arg spec) = argument_input_idxs_ spec.
Proof. unfold store_argument. now destruct (argument_idxs_ spec !! name). Qed.

Lemma store_argument_valid (name : string) (arg : Argument) (spec : OpSpec) :
  argument_idxs_valid spec ->
  Z.of_nat (length (arguments_ (store_argument name arg spec))) <= INT_MAX ->
  argument_idxs_valid (store_argument name arg spec) /\
  (length (arguments_ spec) <= length (arguments_ (store_argument name arg spec)))%nat.
Proof.
  unfold argument_idxs_valid, store_argument. intros Hvalid Hmax.
  destruct (argument_idxs_ spec !! name) as [i|] eqn:Hi; simpl in *.
  - rewrite length_insert. split; [exact Hvalid|lia].
  - rewrite length_app in *. simpl in *. split; [|lia].
    intros n j Hj. destruct (decide (name = n)) as [->|Hne].
    + rewrite lookup_insert_eq in Hj. injection Hj as <-.
      rewrite int_of_size_small by lia. lia.
    + rewrite lookup_insert_ne in Hj by exact Hne.
      specialize (Hvalid n j Hj). lia.
Qed.

Lemma SetInitializedArg_arguments_grow name arg spec spec' :
  SetInitializedArg name arg spec = Ok spec' ->
  (length (arguments_ spec) <= length (arguments_ spec'))%nat.
Proof.
  unfold SetInitializedArg, store_argument.
  destruct (schema_ spec ≫= _) as [[new|]|].
  - destruct (DALI_ENFORCE _ _ _); [|discriminate]. simpl. intros [= <-].
    destruct (argument_idxs_ spec !! new); simpl;
      rewrite ?length_insert, ?length_app; simpl; lia.
  - intros [= <-]. lia.
  - destruct (EnforceNoAliasWithDeprecated spec name); [|discriminate]. simpl.
    intros [= <-].
    destruct (argument_idxs_ spec !! name); simpl;
      rewrite ?length_insert, ?length_app; simpl; lia.
Qed.

Lemma SetInitializedArg_valid name arg spec spec' :
  SetInitializedArg name arg spec = Ok spec' ->
  Z.of_nat (length (arguments_ spec')) <= INT_MAX ->
  argument_idxs_valid spec -> argument_idxs_valid spec'.
Proof.
  unfold SetInitializedArg.
  destruct (schema_ spec ≫= _) as [[new|]|].
  - destruct (DALI_ENFORCE _ _ _); [|discriminate]. simpl.
    intros [= <-] Hmax Hvalid.
    now apply (store_argument_valid new _ (record_set_through new name spec)).
  - now intros [= <-] _ Hvalid.
  - destruct (EnforceNoAliasWithDeprecated spec name); [|discriminate]. simpl.
    intros [= <-] Hmax Hvalid. now apply store_argument_valid.
Qed.

(** The builder calls that do not set an argument leave the literals
    alone. *)
Lemma run_call_literals (c : BuilderCall) (spec spec' : OpSpec) :
  run_call c spec = Ok spec' ->
  (exists T name val, SetArg T name val spec = Ok spec') \/
  (arguments_ spec' = arguments_ spec /\ argument_idxs_ spec' = argument_idxs_ spec).
Proof.
  destruct c as [T name val|T name val|name device regular|arg_name inp_name|name device];
    simpl; intros Hrun.
  - left. apply AddArg_Ok_SetArg in Hrun. eauto.
  - left. eauto.
  - right. unfold AddInput in Hrun.
    destruct (DALI_ENFORCE (valid_device device) _ _); [|discriminate].
    simpl in Hrun. injection Hrun as <-. auto.
  - right. unfold AddArgumentInput in Hrun.
    destruct (DALI_ENFORCE (negb (HasArgument spec arg_name)) _ _); [|discriminate].
    rewrite mbind_Ok in Hrun.
    destruct (DALI_ENFORCE (negb (HasTensorArgument spec arg_name)) _ _); [|discriminate].
    rewrite mbind_Ok in Hrun.
    destruct (GetSchema spec) as [schema|]; [|discriminate].
    rewrite mbind_Ok in Hrun.
    destruct (DALI_ENFORCE (OpSchema_HasArgument schema arg_name) _ _); [|discriminate].
    rewrite mbind_Ok in Hrun.
    unfold AddInput in Hrun. simpl in Hrun. injection Hrun as <-. auto.
  - right. unfold AddOutput in Hrun.
    destruct (DALI_ENFORCE (valid_device device) _ _); [|discriminate].
    rewrite mbind_Ok in Hrun.
    destruct (DALI_ENFORCE _ _ _); [|discriminate].
    injection Hrun as <-. auto.
Qed.

Lemma run_call_arguments_grow c spec spec' :
  run_call c spec = Ok spec' ->
  (length (arguments_ spec) <= length (arguments_ spec'))%nat.
Proof.
  intros Hrun.
  destruct (run_call_literals c spec spec' Hrun) as [(T & name & val & Hset)|[-> _]];
    [|lia].
  now apply (SetInitializedArg_arguments_grow _ _ _ _ Hset).
Qed.

Lemma run_calls_arguments_grow cs spec spec' :
  run_calls cs spec = Ok spec' ->
  (length (arguments_ spec) <= length (arguments_ spec'))%nat.
Proof.
  revert spec. induction cs as [|c rest IH]; simpl; intros spec Hrun.
  - injection Hrun as <-. lia.
  - destruct (run_call c spec) as [spec1|] eqn:Hcall; [|discriminate].
    rewrite mbind_Ok in Hrun.
    pose proof (run_call_arguments_grow c spec spec1 Hcall).
    specialize (IH spec1 Hrun). lia.
Qed.

Lemma run_call_valid c spec spec' :
  run_call c spec = Ok spec' ->
  Z.of_nat (length (arguments_ spec')) <= INT_MAX ->
  argument_idxs_valid spec -> argument_idxs_valid spec'.
Proof.
  intros Hrun Hmax Hvalid.
  destruct (run_call_literals c spec spec' Hrun)
    as [(T & name & val & Hset)|[Hargs Hidxs]].
  - now apply (SetInitializedArg_valid _ _ _ _ Hset).
  - unfold argument_idxs_valid in *. rewrite Hargs, Hidxs. exact Hvalid.
Qed.

Lemma run_calls_valid cs spec spec' :
  run_calls cs spec = Ok spec' ->
  Z.of_nat (length (arguments_ spec')) <= INT_MAX ->
  argument_idxs_valid spec -> argument_idxs_valid spec'.
Proof.
  revert spec. induction cs as [|c rest IH]; simpl; intros spec Hrun Hmax Hvalid.
  - now injection Hrun as <-.
  - destruct (run_call c spec) as [spec1|] eqn:Hcall; [|discriminate].
    rewrite mbind_Ok in Hrun.
    apply (IH spec1 Hrun Hmax).
    apply (run_call_valid c spec spec1 Hcall); [|exact Hvalid].
    pose proof (run_calls_arguments_grow rest spec1 spec' Hrun). lia.
Qed.

(** X13. On a specification built by builder calls that holds at most
    [INT_MAX] literals, every index kept in [argument_idxs_] is a position
    of [arguments_]; so for a name that is not a tensor argument
    [GetArgument<T>] never indexes [arguments_] out of bounds. *)
Theorem built_argument_idxs_valid
    (registry : SchemaRegistry) (schema_name : string)
    (cs : list BuilderCall) (spec : OpSpec) :
  run_calls cs (OpSpec_new registry schema_name) = Ok spec ->
  Z.of_nat (length (arguments_ spec)) <= INT_MAX ->
  argument_idxs_valid spec /\
  forall T name ws idx,
    HasTensorArgument spec name = false ->
    failure_kind (GetArgument T spec name ws idx) <> Some OutOfBounds.
Proof.
  intros Hrun Hmax.
  assert (Hvalid : argument_idxs_valid spec).
  { apply (run_calls_valid cs _ _ Hrun Hmax).
    intros name i Hi. simpl in Hi. rewrite lookup_empty in Hi. discriminate. }
  split; [exact Hvalid|].
  intros T name ws idx Htensor.
  rewrite (GetArgument_unfold T spec name ws idx). unfold GetArgumentImpl_body.
  rewrite Htensor.
  destruct (argument_idxs_ spec !! name) as [i|] eqn:Hi.
  - destruct (Hvalid name i Hi) as [Hlo Hhi].
    destruct (lookup_lt_is_Some_2 (arguments_ spec) (Z.to_nat i)) as [arg Harg]; [lia|].
    rewrite (vector_at_lookup _ _ _ Hlo Harg), mbind_Ok.
    unfold Argument_Get. destruct (Argument_IsType _ arg); simpl; congruence.
  - unfold GetSchema. destruct (schema_ spec) as [schema|]; simpl; [|congruence].
    unfold OpSchema_GetDefaultValueForArgument.
    destruct (schema_arguments schema !! name) as [decl|]; simpl; [|congruence].
    destruct (decl_default decl) as [inst|]; simpl; [|congruence].
    destruct (bool_decide _); simpl; congruence.
Qed.

Lemma built_argument_idxs_valid_witness :
  argument_idxs_valid Ex.spec /\
  failure_kind (GetArgument t_int32 Ex.spec "device" None 0) <> Some OutOfBounds.
Proof.
  destruct (built_argument_idxs_valid Ex.registry "ImageDecoder" Ex.calls Ex.spec
              Ex_spec_built ltac:(vm_compute; congruence)) as [Hvalid Hsafe].
  split; [exact Hvalid|]. apply Hsafe. vm_compute; reflexivity.
Defined.

(** X14. A value of type [T] set with [SetArg<T>(name, val)] is what
    [GetArgument<T>] returns afterwards under the name the argument is
    stored as: [name] itself, or the new name when [name] is a renamed
    deprecated alias.  This holds on a specification whose argument
    indices are valid, for a stored name that is not a tensor argument,
    under every workspace. *)
Theorem SetArg_then_GetArgument
    (T : CType) (name target : string) (val : Value) (spec spec' : OpSpec) :
  SetArg T name val spec = Ok spec' ->
  resolve_alias spec name = Some target ->
  argument_idxs_valid spec ->
  Z.of_nat (length (arguments_ spec')) <= INT_MAX ->
  HasTensorArgument spec target = false ->
  has_type T val ->
  forall ws idx, GetArgument T spec' target ws idx = Ok val.
Proof.
  intros Hset Hres Hvalid Hmax Htensor Hval ws idx.
  assert (Hstored : exists i arg,
             argument_idxs_ spec' !! target = Some i /\ 0 <= i /\
             arguments_ spec' !! Z.to_nat i = Some arg /\
             stored_type arg = argument_storage_t T /\
             stored_value arg = static_cast (argument_storage_t T) val /\
             argument_input_idxs_ spec' = argument_input_idxs_ spec).
  { unfold SetArg, SetInitializedArg in Hset. unfold resolve_alias in Hres.
    destruct (schema_ spec ≫= _) as [[new|]|]; [|discriminate|].
    - injection Hres as ->.
      destruct (DALI_ENFORCE _ _ _); [|discriminate]. simpl in Hset.
      injection Hset as <-.
      destruct (store_argument_lookup target
                  (mkArgument target (argument_storage_t T)
                     (static_cast (argument_storage_t T) val))
                  (record_set_through target name spec) Hvalid Hmax)
        as (i & Hi & Hpos & Harg).
      exists i. eexists. split; [exact Hi|]. split; [exact Hpos|].
      split; [exact Harg|]. repeat split.
      apply (store_argument_input_idxs target _ (record_set_through target name spec)).
    - injection Hres as ->.
      destruct (EnforceNoAliasWithDeprecated spec target); [|discriminate].
      simpl in Hset. injection Hset as <-.
      destruct (store_argument_lookup target
                  (Argument_Store (argument_storage_t T) target
                     (static_cast (argument_storage_t T) val))
                  spec Hvalid Hmax) as (i & Hi & Hpos & Harg).
      exists i. eexists. split; [exact Hi|]. split; [exact Hpos|].
      split; [exact Harg|]. repeat split.
      apply store_argument_input_idxs. }
  destruct Hstored as (i & arg & Hi & Hpos & Harg & Hty & Hv & Hinputs).
  rewrite (GetArgument_unfold T spec' target ws idx). unfold GetArgumentImpl_body.
  assert (Ht : HasTensorArgument spec' target = false)
    by (unfold HasTensorArgument in *; now rewrite Hinputs).
  rewrite Ht, Hi, (vector_at_lookup _ _ _ Hpos Harg), mbind_Ok.
  unfold Argument_Get, Argument_IsType.
  rewrite bool_decide_eq_true_2 by exact Hty. simpl. rewrite Hv.
  now rewrite (static_cast_round_trip T val Hval).
Qed.

Lemma SetArg_then_GetArgument_witness :
  exists spec',
    SetArg t_uint32 "huffman_threshold" (VInt 0) (OpSpec_new Ex.registry "ImageDecoder") =
      Ok spec' /\
    GetArgument t_uint32 spec' "hybrid_huffman_threshold" None 0 = Ok (VInt 0).
Proof.
  exists Ex.spec_alias.
  assert (Hset : SetArg t_uint32 "huffman_threshold" (VInt 0)
                   (OpSpec_new Ex.registry "ImageDecoder") = Ok Ex.spec_alias)
    by (vm_compute; reflexivity).
  split; [exact Hset|].
  apply (SetArg_then_GetArgument t_uint32 "huffman_threshold" "hybrid_huffman_threshold"
           (VInt 0) (OpSpec_new Ex.registry "ImageDecoder") Ex.spec_alias Hset).
  - vm_compute; reflexivity.
  - intros name i Hi. simpl in Hi. rewrite lookup_empty in Hi. discriminate.
  - vm_compute; congruence.
  - vm_compute; reflexivity.
  - vm_compute; split; congruence.
Defined.

(** ** The recorded argument inputs *)

Lemma SetInitializedArg_input_idxs name arg spec spec' :
  SetInitializedArg name arg spec = Ok spec' ->
  argument_input_idxs_ spec' = argument_input_idxs_ spec.
Proof.
  unfold SetInitializedArg.
  destruct (schema_ spec ≫= _) as [[new|]|].
  - destruct (DALI_ENFORCE _ _ _); [|discriminate]. simpl. intros [= <-].
    apply (store_argument_input_idxs new _ (record_set_through new name spec)).
  - now intros [= <-].
  - destruct (EnforceNoAliasWithDeprecated spec name); [|discriminate]. simpl.
    intros [= <-]. apply store_argument_input_idxs.
Qed.

(** The map [argument_input_idxs_] follows the sequence
    [argument_inputs_]. *)
Lemma run_call_idxs_agree c spec spec' :
  run_call c spec = Ok spec' ->
  argument_input_idxs_agree spec -> argument_input_idxs_agree spec'.
Proof.
  unfold argument_input_idxs_agree.
  destruct c as [T name val|T name val|name device regular|arg_name inp_name|name device];
    simpl; intros Hrun Hinv.
  - apply AddArg_Ok_SetArg in Hrun.
    destruct (SetInitializedArg_inputs _ _ _ _ Hrun) as [_ ->].
    now rewrite (SetInitializedArg_input_idxs _ _ _ _ Hrun).
  - destruct (SetInitializedArg_inputs _ _ _ _ Hrun) as [_ ->].
    now rewrite (SetInitializedArg_input_idxs _ _ _ _ Hrun).
  - unfold AddInput in Hrun.
    destruct (DALI_ENFORCE (valid_device device) _ _); [|discriminate].
    simpl in Hrun. injection Hrun as <-. exact Hinv.
  - unfold AddArgumentInput in Hrun.
    destruct (DALI_ENFORCE (negb (HasArgument spec arg_name)) _ _); [|discriminate].
    rewrite mbind_Ok in Hrun.
    unfold HasTensorArgument in Hrun.
    destruct (argument_input_idxs_ spec !! arg_name) as [i0|] eqn:Hfresh.
    { rewrite bool_decide_eq_true_2 in Hrun by eauto. discriminate. }
    rewrite bool_decide_eq_false_2 in Hrun by (intros [x Hx]; discriminate).
    simpl in Hrun.
    destruct (GetSchema spec) as [schema|]; [|discriminate].
    rewrite mbind_Ok in Hrun.
    destruct (DALI_ENFORCE (OpSchema_HasArgument schema arg_name) _ _); [|discriminate].
    rewrite mbind_Ok in Hrun.
    unfold AddInput in Hrun. simpl in Hrun. injection Hrun as <-. simpl.
    intros k name i Hk.
    destruct (decide (k < length (argument_inputs_ spec))%nat) as [Hlt|Hge].
    + rewrite lookup_app_l in Hk by exact Hlt.
      pose proof (Hinv k name i Hk) as Hold.
      rewrite lookup_insert_ne; [exact Hold|]. intros ->. congruence.
    + rewrite lookup_app_r in Hk by lia.
      destruct (k - length (argument_inputs_ spec))%nat as [|m];
        simpl in Hk; [|discriminate].
      injection Hk as <- <-. apply lookup_insert_eq.
  - unfold AddOutput in Hrun.
    destruct (DALI_ENFORCE (valid_device device) _ _); [|discriminate].
    rewrite mbind_Ok in Hrun.
    destruct (DALI_ENFORCE _ _ _); [|discriminate].
    simpl in Hrun. injection Hrun as <-. exact Hinv.
Qed.

Lemma run_calls_idxs_agree cs spec spec' :
  run_calls cs spec = Ok spec' ->
  argument_input_idxs_agree spec -> argument_input_idxs_agree spec'.
Proof.
  revert spec. induction cs as [|c rest IH]; simpl; intros spec Hrun Hinv.
  - now injection Hrun as <-.
  - destruct (run_call c spec) as [spec1|] eqn:Hcall; [|discriminate].
    rewrite mbind_Ok in Hrun.
    apply (IH spec1 Hrun). now apply (run_call_idxs_agree c spec).
Qed.

(** X15. In whatever order the builder calls come, on a specification
    built from a new one with at most [INT_MAX] inputs the argument input
    of the [k]-th [AddArgumentInput] call is the [k]-th entry of
    [argument_inputs_]; the input index kept with it is the one
    [ArgumentInputIdx] returns for the argument name, and the input at
    that index is the one the call named. *)
Theorem recorded_argument_input_indices
    (registry : SchemaRegistry) (schema_name : string)
    (cs : list BuilderCall) (spec : OpSpec) :
  run_calls cs (OpSpec_new registry schema_name) = Ok spec ->
  Z.of_nat (length (inputs_ spec)) <= INT_MAX ->
  length (argument_inputs_ spec) = length (added_argument_inputs cs) /\
  forall (k : nat) (arg_name inp_name : string),
    added_argument_inputs cs !! k = Some (arg_name, inp_name) ->
    exists i,
      argument_inputs_ spec !! k = Some (arg_name, i) /\
      ArgumentInputIdx spec arg_name = Ok i /\
      HasTensorArgument spec arg_name = true /\
      InputName spec i = Ok inp_name.
Proof.
  intros Hrun Hmax.
  destruct (built_inputs registry schema_name cs spec Hrun Hmax)
    as (Hin & Harg & _).
  split; [rewrite Harg; apply length_recorded|].
  intros k arg_name inp_name Hk.
  assert (Hbound : Z.of_nat (0 + length (flat_map new_inputs cs)) <= INT_MAX)
    by (rewrite <- Hin; simpl; exact Hmax).
  destruct (recorded_points_at_input cs 0 k arg_name inp_name Hbound Hk)
    as (j & Hrec & Hinp).
  simpl in Hrec. rewrite <- Harg in Hrec. rewrite <- Hin in Hinp.
  assert (Hagree : argument_input_idxs_agree spec).
  { apply (run_calls_idxs_agree cs _ _ Hrun).
    intros k0 name i Hk0. simpl in Hk0. discriminate. }
  pose proof (Hagree k arg_name (Z.of_nat j) Hrec) as Hidx.
  exists (Z.of_nat j). split; [exact Hrec|].
  unfold ArgumentInputIdx, HasTensorArgument. rewrite Hidx.
  split; [reflexivity|]. split; [apply bool_decide_eq_true_2; eauto|].
  now rewrite (InputName_lookup spec j _ Hmax Hinp).
Qed.

Lemma recorded_argument_input_indices_witness :
  exists spec,
    run_calls [ CallAddArgumentInput "crop_pos_x" "crop_x_data";
                CallAddInput "late" "cpu" false ]
      (OpSpec_new Ex.registry "ImageDecoder") = Ok spec /\
    ArgumentInputIdx spec "crop_pos_x" = Ok 0 /\
    InputName spec 0 = Ok "crop_x_data".
Proof.
  destruct (run_calls [ CallAddArgumentInput "crop_pos_x" "crop_x_data";
                        CallAddInput "late" "cpu" false ]
              (OpSpec_new Ex.registry "ImageDecoder")) as [spec|] eqn:Hrun;
    [|vm_compute in Hrun; discriminate].
  exists spec. split; [reflexivity|].
  destruct (recorded_argument_input_indices Ex.registry "ImageDecoder" _ spec Hrun)
    as [_ Hcalls].
  { vm_compute in Hrun. injection Hrun as <-. vm_compute. congruence. }
  destruct (Hcalls 0%nat "crop_pos_x" "crop_x_data" ltac:(reflexivity))
    as (i & Hrec & Hidx & _ & Hinp).
  assert (Hi : i = 0).
  { vm_compute in Hrun. injection Hrun as <-. vm_compute in Hrec. congruence. }
  rewrite Hi in Hidx, Hinp. split; [exact Hidx|exact Hinp].
Defined.
